(** * ERobot: kinematic tree, path resolution, velocity dampers and RNE

    A shallow embedding of [roboticstoolbox/robot/ERobot.py].

    Python objects are modelled by handles into an object store: a [Link]
    object is the index of its record in [objs], so that [link != start]
    (object identity) is inequality of handles.  Floats are modelled by
    rationals; a division of two Python floats by zero raises, while a
    division of a NumPy array by zero gives entries that are not finite
    ([npfloat]).  Exceptions are the [Raise] outcome of a small error monad,
    and the robot attributes that the methods update are threaded through
    explicitly. *)

From Stdlib Require Import QArith ZArith List Lia.
From stdpp Require Import base option list gmap strings pretty.

Set Default Proof Using "Type".
Open Scope nat_scope.

(** ** Outcomes *)

Inductive exn : Type :=
| NoPathError (start_name end_name : string)  (* ValueError "cannot find path from .. to .." *)
| LinkError                                    (* ValueError of [_getlink] *)
| BaseError                                    (* ValueError raised by the [base] setter *)
| ConfigError (msg : string)                   (* ValueError of the tree builder *)
| IndexError
| KeyError
| TypeError
| AttributeError
| ZeroDivisionError
| ShapeError.                                  (* NumPy broadcasting / dimension errors *)

Inductive result (A : Type) : Type :=
| Ok (a : A)
| Raise (e : exn)
| Diverges.                                    (* the [while] loop never exits *)

Arguments Ok {A} a.
Arguments Raise {A} e.
Arguments Diverges {A}.

(** The error monad; [x ← c; k] is stdpp's notation for [mbind]. *)
#[global] Instance result_ret : MRet result := fun A a => Ok a.
#[global] Instance result_bind : MBind result := fun A B f x =>
  match x with
  | Ok a => f a
  | Raise e => Raise e
  | Diverges => Diverges
  end.

(** ** Numeric data *)

Definition vec3 : Type := (Q * Q * Q)%type.
Definition vec6 : Type := (vec3 * vec3)%type.

(** A homogeneous transform, row by row. *)
Definition SE3 : Type := list (list Q).
Definition SE2 : Type := list (list Q).

(** [SE3()] and [SE2()]: the identity transforms. *)
Definition SE3_eye : SE3 :=
  [[1; 0; 0; 0]; [0; 1; 0; 0]; [0; 0; 1; 0]; [0; 0; 0; 1]]%Q.
Definition SE2_eye : SE2 :=
  [[1; 0; 0]; [0; 1; 0]; [0; 0; 1]]%Q.

(** ** Objects *)

(** A handle is the index of an object in its store. *)
Abbreviation handle := nat (only parsing).

(** A collision shape (spatialgeometry): its identity, its velocity [v] and
    its pose [T]. *)
Record Shape : Type := mkShape {
  shape_id : nat;
  shape_v : vec6;
  shape_T : SE3
}.

(** The joint variable of a link: [link.v], with its motion subspace [s]. *)
Record ET : Type := mkET {
  et_s : vec6;
  et_qlim : option (Q * Q)
}.

Record Link : Type := mkLink {
  name : string;
  isjoint : bool;
  jindex : option nat;
  parent : option handle;
  parent_name : option string;
  children : list handle;
  auto_jindex : bool;                (* [link.ets._auto_jindex] *)
  collision : list Shape;
  link_Ts : option SE3;
  link_A : Q -> SE3;
  link_m : Q;
  link_r : vec3;
  link_v : option ET
}.

Record Gripper : Type := mkGripper {
  gid : nat;                     (* object identity *)
  gname : string;
  glinks : list handle;
  gtool : SE3;
  gn : nat
}.

(** What [end] and [start] may be: [None], a [Link], a [str] or a [Gripper]. *)
Inductive designator : Type :=
| DNone
| DLink (h : handle)
| DName (s : string)
| DGripper (g : nat).

Definition path_entry : Type := (list handle * nat * SE3)%type.

Record Robot : Type := mkRobot {
  objs : list Link;                              (* the Link objects *)
  links : list handle;                           (* [self.links] *)
  grippers : list Gripper;
  ee_links : list handle;
  base_link : handle;
  rn : nat;                                      (* [self.n] *)
  _linkdict : gmap string handle;
  _path_cache : gmap string (gmap string path_entry);
  _cache_end : option designator;
  _cache_end_tool : option (option SE3);
  _cache_start : option designator
}.

Definition set_path_cache (r : Robot) (c : gmap string (gmap string path_entry)) : Robot :=
  mkRobot (objs r) (links r) (grippers r) (ee_links r) (base_link r) (rn r)
          (_linkdict r) c (_cache_end r) (_cache_end_tool r) (_cache_start r).

Definition set_cache_end (r : Robot) (e : designator) (t : option SE3) : Robot :=
  mkRobot (objs r) (links r) (grippers r) (ee_links r) (base_link r) (rn r)
          (_linkdict r) (_path_cache r) (Some e) (Some t) (_cache_start r).

Definition set_cache_start (r : Robot) (s : designator) : Robot :=
  mkRobot (objs r) (links r) (grippers r) (ee_links r) (base_link r) (rn r)
          (_linkdict r) (_path_cache r) (_cache_end r) (_cache_end_tool r) (Some s).

(** Attribute access on a Link object. *)
Definition obj_get (os : list Link) (h : handle) : result Link :=
  match os !! h with
  | Some l => Ok l
  | None => Raise AttributeError
  end.

Definition deref (r : Robot) (h : handle) : result Link := obj_get (objs r) h.

(** [xs[0]] *)
Definition first {A} (xs : list A) : result A :=
  match xs with
  | x :: _ => Ok x
  | [] => Raise IndexError
  end.

(** ** Path resolution *)

(** Modelled from the spec: [Robot._getlink], which the robot inherits and
    which is not part of this file.  A name is looked up in the link
    dictionary, a Link reference must belong to the robot or to one of its
    grippers, and a Gripper of the robot stands for its first link. *)
Definition _getlink (r : Robot) (d : designator) : result handle :=
  match d with
  | DNone => Raise TypeError
  | DName s =>
      match _linkdict r !! s with
      | Some h => Ok h
      | None => Raise LinkError
      end
  | DLink h =>
      if bool_decide (h ∈ links r) || existsb (fun g => bool_decide (h ∈ glinks g)) (grippers r)
      then Ok h else Raise LinkError
  | DGripper i =>
      match find (fun g => Nat.eqb (gid g) i) (grippers r) with
      | Some g => first (glinks g)
      | None => Raise LinkError
      end
  end.

(** [end == gripper or end == gripper.name] *)
Definition names_gripper (d : designator) (g : Gripper) : bool :=
  match d with
  | DGripper i => Nat.eqb i (gid g)
  | DName s => bool_decide (s = gname g)
  | _ => false
  end.

(** The loop over the grippers: the last gripper that matches gives the tool. *)
Definition gripper_tool (gs : list Gripper) (d : designator) : option SE3 :=
  fold_left (fun tool g => if names_gripper d g then Some (gtool g) else tool) gs None.

(** [_get_limit_links]: the end link, the start link and the tool, with the
    robot as the method leaves it (also when it raises).  The two messages
    printed when several grippers or end-effectors exist go to the console
    and change nothing. *)
Definition _get_limit_links (r : Robot) (end_ start : designator)
  : result (handle * handle * option SE3) * Robot :=
  let '(e, r1) :=
    match end_ with
    | DNone =>
        let found :=
          if 1 <? length (grippers r) then
            g ← first (grippers r); h ← first (glinks g); Ok (h, Some (gtool g))
          else if length (grippers r) =? 1 then
            g ← first (grippers r); h ← first (glinks g); Ok (h, Some (gtool g))
          else if 1 <? length (ee_links r) then
            h ← first (ee_links r); Ok (h, None)
          else
            h ← first (ee_links r); Ok (h, None) in
        match found with
        | Ok (h, tool) => (Ok (h, tool), set_cache_end r DNone tool)
        | Raise x => (Raise x, r)
        | Diverges => (Diverges, r)
        end
    | _ =>
        let tool := gripper_tool (grippers r) end_ in
        (h ← _getlink r end_; Ok (h, tool), r)
    end in
  match e with
  | Ok (end_ret, tool) =>
      match start with
      | DNone => (Ok (end_ret, base_link r1, tool), set_cache_start r1 DNone)
      | _ => (s ← _getlink r1 start; Ok (end_ret, s, tool), r1)
      end
  | Raise x => (Raise x, r1)
  | Diverges => (Diverges, r1)
  end.

(** [self._path_cache[a][b]], [None] standing for [KeyError]. *)
Definition cache_get (c : gmap string (gmap string path_entry)) (a b : string)
  : option path_entry :=
  match c !! a with
  | Some inner => inner !! b
  | None => None
  end.

(** [if start.name not in self._path_cache: self._path_cache[start.name] = {}] *)
Definition cache_touch (c : gmap string (gmap string path_entry)) (a : string)
  : gmap string (gmap string path_entry) :=
  match c !! a with
  | Some _ => c
  | None => <[a := ∅]> c
  end.

(** [self._path_cache[a][b] = t]; the outer entry exists after [cache_touch]. *)
Definition cache_put (c : gmap string (gmap string path_entry)) (a b : string)
  (t : path_entry) : result (gmap string (gmap string path_entry)) :=
  match c !! a with
  | Some inner => Ok (<[a := <[b := t]> inner]> c)
  | None => Raise KeyError
  end.

(** [if link.isjoint: n += 1] *)
Definition count_joint (l : Link) (n : nat) : nat :=
  if isjoint l then S n else n.

(** The number of the links of [ls] that are joints. *)
Definition count_joints (os : list Link) (ls : list handle) : nat :=
  length (List.filter (fun h => match os !! h with Some l => isjoint l | None => false end) ls).

(** The [while link != start] loop.  [fuel] bounds the number of iterations;
    the loop itself has no bound. *)
Fixpoint walk (r : Robot) (fuel : nat) (start link : handle)
  (path : list handle) (n : nat) : result (option (list handle * nat)) :=
  if decide (link = start) then Ok (Some (path, n))
  else
    match fuel with
    | O => Diverges
    | S fuel' =>
        l ← deref r link;
        match parent l with
        | None => Ok None
        | Some p =>
            pl ← deref r p;
            walk r fuel' start p (path ++ [p]) (count_joint pl n)
        end
    end.

(** The part of [get_path] that follows a cache miss, with the bound of the
    loop explicit. *)
Definition resolve_walk (r : Robot) (fuel : nat) (e s : handle)
  : result (option (list handle * nat)) :=
  el ← deref r e;
  walk r fuel s e [e] (count_joint el 0).

Definition get_path_fuel (fuel : nat) (r : Robot) (end_ start : designator)
  : result path_entry * Robot :=
  match _get_limit_links r end_ start with
  | (Ok (e, s, tool), r1) =>
      match deref r1 s, deref r1 e with
      | Ok sl, Ok el =>
          match cache_get (_path_cache r1) (name sl) (name el) with
          | Some t => (Ok t, r1)
          | None =>
              let r2 := set_path_cache r1 (cache_touch (_path_cache r1) (name sl)) in
              match resolve_walk r2 fuel e s with
              | Ok (Some (path, n)) =>
                  let t := (rev path, n, default SE3_eye tool) in
                  match cache_put (_path_cache r2) (name sl) (name el) t with
                  | Ok c => (Ok t, set_path_cache r2 c)
                  | Raise x => (Raise x, r2)
                  | Diverges => (Diverges, r2)
                  end
              | Ok None => (Raise (NoPathError (name sl) (name el)), r2)
              | Raise x => (Raise x, r2)
              | Diverges => (Diverges, r2)
              end
          end
      | Raise x, _ => (Raise x, r1)
      | Diverges, _ => (Diverges, r1)
      | _, Raise x => (Raise x, r1)
      | _, Diverges => (Diverges, r1)
      end
  | (Raise x, r1) => (Raise x, r1)
  | (Diverges, r1) => (Diverges, r1)
  end.

(** [get_path]: a walk that visits every link object once has made
    [length (objs r)] steps at most, so that this bound loses no result
    (see [walk_fuel_enough]), and a walk that needs more never ends (see
    [walk_diverges]). *)
Definition get_path (r : Robot) (end_ start : designator) : result path_entry * Robot :=
  get_path_fuel (length (objs r)) r end_ start.

(** [get_path] without the cache: the tuple that the walk alone gives.  It
    is the reference against which the cached method is compared. *)
Definition get_path_nocache (r : Robot) (end_ start : designator) : result path_entry :=
  match _get_limit_links r end_ start with
  | (Ok (e, s, tool), r1) =>
      sl ← deref r1 s;
      el ← deref r1 e;
      w ← resolve_walk r1 (length (objs r1)) e s;
      match w with
      | Some (path, n) => Ok (rev path, n, default SE3_eye tool)
      | None => Raise (NoPathError (name sl) (name el))
      end
  | (Raise x, _) => Raise x
  | (Diverges, _) => Diverges
  end.

(** ** Velocity dampers *)

Open Scope Q_scope.

(** Division of scalars, which are Python floats ([di], [ds] and [xi] are
    documented as float, and the distance is taken to be one as well):
    [ZeroDivisionError] when the divisor is zero. *)
Definition qdiv (x y : Q) : result Q :=
  if Qeq_bool y 0 then Raise ZeroDivisionError else Ok (x / y).

Definition vneg3 (a : vec3) : vec3 := let '(x, y, z) := a in (- x, - y, - z).
Definition vadd3 (a b : vec3) : vec3 :=
  let '(x, y, z) := a in let '(x', y', z') := b in (x + x', y + y', z + z').

(** An element of a NumPy array of floats: a finite value, here a rational,
    or one of [inf], [-inf] and [nan].  Array arithmetic gives one of these
    three, with a warning and no exception, where it divides by zero, and
    sums and products hand them on ([inf * 0] and [inf - inf] are [nan]). *)
Inductive npfloat : Type :=
| Fin (x : Q)
| NonFinite.

Definition npvec3 : Type := (npfloat * npfloat * npfloat)%type.
Definition npvec6 : Type := (npvec3 * npvec3)%type.

Definition np_add (a b : npfloat) : npfloat :=
  match a, b with
  | Fin x, Fin y => Fin (x + y)
  | _, _ => NonFinite
  end.
Definition np_mul (a b : npfloat) : npfloat :=
  match a, b with
  | Fin x, Fin y => Fin (x * y)
  | _, _ => NonFinite
  end.
(** [x / d] inside an array division. *)
Definition np_div (x d : Q) : npfloat :=
  if Qeq_bool d 0 then NonFinite else Fin (x / d).

(** [a / d] for an array [a] of three floats. *)
Definition vdiv3 (a : vec3) (d : Q) : npvec3 :=
  let '(x, y, z) := a in (np_div x d, np_div y d, np_div z d).
(** [k * a] for an array [a] of six floats. *)
Definition np_scale6 (k : Q) (a : npvec6) : npvec6 :=
  let '(x, y, z) := fst a in let '(u, v, w) := snd a in
  ((np_mul (Fin k) x, np_mul (Fin k) y, np_mul (Fin k) z),
   (np_mul (Fin k) u, np_mul (Fin k) v, np_mul (Fin k) w)).
(** [a @ b] for an array [a] and a finite six-vector [b], summed in index
    order. *)
Definition np_dot6 (a : npvec6) (b : vec6) : npfloat :=
  let '(x, y, z) := fst a in let '(x', y', z') := fst b in
  let '(u, v, w) := snd a in let '(u', v', w') := snd b in
  np_add (np_add (np_add (np_add (np_add
    (np_mul x (Fin x')) (np_mul y (Fin y'))) (np_mul z (Fin z')))
    (np_mul u (Fin u'))) (np_mul v (Fin v'))) (np_mul w (Fin w')).
Definition vscale3 (k : Q) (a : vec3) : vec3 :=
  let '(x, y, z) := a in (k * x, k * y, k * z).
Definition vscale6 (k : Q) (a : vec6) : vec6 :=
  (vscale3 k (fst a), vscale3 k (snd a)).
Definition dot3 (a b : vec3) : Q :=
  let '(x, y, z) := a in let '(x', y', z') := b in x * x' + y * y' + z * z'.
(** [a @ b] on six-vectors, summed in index order. *)
Definition dot6 (a b : vec6) : Q :=
  let '(x, y, z) := fst a in let '(x', y', z') := fst b in
  let '(u, v, w) := snd a in let '(u', v', w') := snd b in
  x * x' + y * y' + z * z' + u * u' + v * v' + w * w'.

(** The collaborators of the damper: [closest_point] of the collision
    shapes, which gives the distance as a float and the two points as
    arrays, and the Jacobian engine of the robot ([jacobe]), whose result is
    given column by column. *)
Class Kinematics : Type := {
  closest_point : Shape -> Shape -> Q -> option (Q * vec3 * vec3);
  jacobe : Robot -> option (list Q) -> handle -> handle -> SE3 -> result (list vec6)
}.

(** [xs[i]] for a Python index, which counts from the end when negative. *)
Definition py_index {A} (xs : list A) (i : Z) : result A :=
  let len := Z.of_nat (length xs) in
  let k := if (i <? 0)%Z then (len + i)%Z else i in
  if ((0 <=? k) && (k <? len))%Z
  then match xs !! Z.to_nat k with Some x => Ok x | None => Raise IndexError end
  else Raise IndexError.

Section Damper.
Context `{K : Kinematics}.
Variables (r : Robot) (shape : Shape) (q : option (list Q)) (di ds xi : Q).
Variables (start : handle) (n : nat).

(** [indiv_calculation]: the row and the bound of one collision shape of
    one link, or nothing when the shape is out of reach. *)
Definition indiv_calculation (link : handle) (link_col : Shape)
  : result (option (list npfloat * npfloat)) :=
  match closest_point link_col shape di with
  | Some (d, wTlp, wTcp) =>
      let lpTcp := vadd3 (vneg3 wTlp) wTcp in
      let norm := vdiv3 lpTcp d in
      let norm_h : npvec6 := (norm, (Fin 0, Fin 0, Fin 0)) in
      Je ← jacobe r q start link (shape_T link_col);
      let n_dim := length Je in
      let dp := np_dot6 norm_h (shape_v shape) in
      if (n_dim <=? n)%nat then
        let l_Ain := map (np_dot6 (np_scale6 1 norm_h)) Je
                     ++ replicate (n - n_dim) (Fin 0) in
        b ← qdiv (xi * (d - ds)) (di - ds);
        Ok (Some (l_Ain, np_add (Fin b) dp))
      else Raise ShapeError
  | None => Ok None
  end.

(** The inner loop: the shapes of one link. *)
Fixpoint damper_shapes (link : handle) (col_list : list Shape)
  (acc : list (list npfloat) * list npfloat)
  : result (list (list npfloat) * list npfloat) :=
  match col_list with
  | [] => Ok acc
  | link_col :: rest =>
      c ← indiv_calculation link link_col;
      match c with
      | Some (l_Ain, l_bin) =>
          damper_shapes link rest (fst acc ++ [l_Ain], snd acc ++ [l_bin])
      | None => damper_shapes link rest acc
      end
  end.

(** The outer loop: the links of the path, [j] counting the joints. *)
Fixpoint damper_links (collision_list : option (list (list Shape)))
  (path : list handle) (j : nat) (acc : list (list npfloat) * list npfloat)
  : result (list (list npfloat) * list npfloat) :=
  match path with
  | [] => Ok acc
  | link :: rest =>
      l ← deref r link;
      let j := if isjoint l then S j else j in
      col_list ← match collision_list with
                 | None => Ok (collision l)
                 | Some cl => py_index cl (Z.of_nat j - 1)
                 end;
      acc' ← damper_shapes link col_list acc;
      damper_links collision_list rest j acc'
  end.
End Damper.

(** [Ain] and [bin] stay [None] until a first row is there. *)
Definition damper_out (acc : list (list npfloat) * list npfloat)
  : option (list (list npfloat)) * option (list npfloat) :=
  match fst acc with
  | [] => (None, None)
  | _ => (Some (fst acc), Some (snd acc))
  end.

Definition link_collision_damper `{K : Kinematics} (r : Robot) (shape : Shape)
  (q : option (list Q)) (di ds xi : Q) (end_ start : designator)
  (collision_list : option (list (list Shape)))
  : result (option (list (list npfloat)) * option (list npfloat)) * Robot :=
  match _get_limit_links r end_ start with
  | (Ok (e, s, _), r1) =>
      match get_path r1 (DLink e) (DLink s) with
      | (Ok (path, n, _), r2) =>
          (acc ← damper_links r2 shape q di ds xi s n collision_list path 0%nat ([], []);
           Ok (damper_out acc), r2)
      | (Raise x, r2) => (Raise x, r2)
      | (Diverges, r2) => (Diverges, r2)
      end
  | (Raise x, r1) => (Raise x, r1)
  | (Diverges, r1) => (Diverges, r1)
  end.

(** The pairs of a link and a collision shape which the two loops go
    through, in the order of the loops. *)
Fixpoint path_shapes (r : Robot) (collision_list : option (list (list Shape)))
  (path : list handle) (j : nat) : result (list (handle * Shape)) :=
  match path with
  | [] => Ok []
  | link :: rest =>
      l ← deref r link;
      let j := if isjoint l then S j else j in
      col_list ← match collision_list with
                 | None => Ok (collision l)
                 | Some cl => py_index cl (Z.of_nat j - 1)
                 end;
      ps ← path_shapes r collision_list rest j;
      Ok (map (pair link) col_list ++ ps)
  end.

(** [f] on every element, from left to right. *)
Fixpoint result_map {A B} (f : A -> result B) (xs : list A) : result (list B) :=
  match xs with
  | [] => Ok []
  | x :: rest => y ← f x; ys ← result_map f rest; Ok (y :: ys)
  end.

(** The rows that are there, one above the other. *)
Definition stack (rows : list (option (list npfloat * npfloat)))
  : list (list npfloat) * list npfloat :=
  (map fst (omap id rows), map snd (omap id rows)).

Close Scope Q_scope.

(** ** Recursive Newton-Euler *)

(** The spatial-vector algebra of spatialmath, as rne uses it.  The
    [*_alloc] values are the elements of a freshly allocated array. *)
Class SpatialAlgebra : Type := {
  SpatialVelocity : Type;
  SpatialAcceleration : Type;
  SpatialForce : Type;
  SpatialMomentum : Type;
  SpatialInertia : Type;
  SE3_mul : SE3 -> SE3 -> SE3;                                  (* T1 * T2 *)
  SE3_inv : SE3 -> SE3;                                         (* T.inv() *)
  SE3_alloc : SE3;
  sv_of : vec6 -> SpatialVelocity;                              (* SpatialVelocity(x) *)
  sv_alloc : SpatialVelocity;
  sv_add : SpatialVelocity -> SpatialVelocity -> SpatialVelocity;
  sv_xform : SE3 -> SpatialVelocity -> SpatialVelocity;         (* X * v *)
  sv_cross : SpatialVelocity -> SpatialVelocity -> SpatialAcceleration;   (* v @ vJ *)
  sa_of : vec6 -> SpatialAcceleration;
  sa_of3 : vec3 -> SpatialAcceleration;                         (* of the gravity vector *)
  sa_alloc : SpatialAcceleration;
  sa_neg : SpatialAcceleration -> SpatialAcceleration;
  sa_add : SpatialAcceleration -> SpatialAcceleration -> SpatialAcceleration;
  sa_xform : SE3 -> SpatialAcceleration -> SpatialAcceleration;
  si_of : Q -> vec3 -> SpatialInertia;                          (* SpatialInertia(m=, r=) *)
  si_alloc : SpatialInertia;
  si_mul_a : SpatialInertia -> SpatialAcceleration -> SpatialForce;
  si_mul_v : SpatialInertia -> SpatialVelocity -> SpatialMomentum;
  sv_cross_m : SpatialVelocity -> SpatialMomentum -> SpatialForce;        (* v @ (I * v) *)
  sf_alloc : SpatialForce;
  sf_add : SpatialForce -> SpatialForce -> SpatialForce;
  sf_xform : SE3 -> SpatialForce -> SpatialForce;
  sf_A : SpatialForce -> vec6                                   (* f.A *)
}.

(** [xs[i]] and [xs[i] = x] for an index that is not negative. *)
Definition nth_r {A} (xs : list A) (i : nat) : result A :=
  match xs !! i with
  | Some x => Ok x
  | None => Raise IndexError
  end.

Definition set_r {A} (xs : list A) (i : nat) (x : A) : result (list A) :=
  if (i <? length xs)%nat then Ok (<[i := x]> xs) else Raise IndexError.

(** [xs[jp]] where [jp] is the [jindex] of a link, which may be [None]. *)
Definition nth_j {A} (xs : list A) (jp : option nat) : result A :=
  match jp with
  | Some i => nth_r xs i
  | None => Raise TypeError
  end.

Definition set_j {A} (xs : list A) (jp : option nat) (x : A) : result (list A) :=
  match jp with
  | Some i => set_r xs i x
  | None => Raise TypeError
  end.

Section RNE.
Context `{SA : SpatialAlgebra}.
Variable r : Robot.
Variables (q qd qdd : list Q) (symbolic : bool) (gravity : vec3).

(** [SE3(link.Ts, check=False)] *)
Definition SE3_of (Ts : option SE3) : SE3 := default SE3_eye Ts.

(** The first loop of rne over [self.links]: the inertias [I], the
    transforms [Xtree] and the motion subspaces [s]; [Ts] collects the
    transforms of the fixed links and [j] counts the joints. *)
Fixpoint rne_init (ls : list handle) (Ts : SE3) (j : nat)
  (I_ : list SpatialInertia) (Xtree : list SE3) (s : list vec6)
  : result (list SpatialInertia * list SE3 * list vec6) :=
  match ls with
  | [] => Ok (I_, Xtree, s)
  | h :: rest =>
      link ← deref r h;
      if isjoint link then
        I_' ← set_r I_ j (si_of (link_m link) (link_r link));
        Xtree' ← set_r Xtree j
          (if symbolic && negb (bool_decide (is_Some (link_Ts link)))
           then SE3_eye
           else SE3_mul Ts (SE3_of (link_Ts link)));
        let s' := match link_v link with
                  | Some v => s ++ [et_s v]
                  | None => s
                  end in
        rne_init rest SE3_eye (S j) I_' Xtree' s'
      else
        rne_init rest (SE3_mul Ts (SE3_of (link_Ts link))) j I_ Xtree s
  end.

Record rne_state : Type := mkRneState {
  st_Xup : list SE3;
  st_v : list SpatialVelocity;
  st_a : list SpatialAcceleration;
  st_f : list SpatialForce
}.

(** One iteration of the forward recursion, for the index [j]. *)
Definition rne_forward_step (I_ : list SpatialInertia) (s : list vec6)
  (a_grav : SpatialAcceleration) (j : nat) (st : rne_state) : result rne_state :=
  sj ← nth_r s j;
  qdj ← nth_r qd j;
  let vJ := sv_of (vscale6 qdj sj) in
  lh ← nth_r (links r) j;
  lj ← deref r lh;
  qj ← nth_r q j;
  Xup ← set_r (st_Xup st) j (SE3_inv (link_A lj qj));
  Xupj ← nth_r Xup j;
  '(v, a) ←
    match parent lj with
    | None =>
        v ← set_r (st_v st) j vJ;
        qddj ← nth_r qdd j;
        a ← set_r (st_a st) j (sa_add (sa_xform Xupj a_grav) (sa_of (vscale6 qddj sj)));
        Ok (v, a)
    | Some ph =>
        pl ← deref r ph;
        let jp := jindex pl in
        vjp ← nth_j (st_v st) jp;
        v ← set_r (st_v st) j (sv_add (sv_xform Xupj vjp) vJ);
        ajp ← nth_j (st_a st) jp;
        qddj ← nth_r qdd j;
        vj ← nth_r v j;
        a ← set_r (st_a st) j
              (sa_add (sa_add (sa_xform Xupj ajp) (sa_of (vscale6 qddj sj)))
                      (sv_cross vj vJ));
        Ok (v, a)
    end;
  Ij ← nth_r I_ j;
  aj ← nth_r a j;
  vj ← nth_r v j;
  f ← set_r (st_f st) j (sf_add (si_mul_a Ij aj) (sv_cross_m vj (si_mul_v Ij vj)));
  Ok (mkRneState Xup v a f).

(** [for j in range(0, n)] *)
Fixpoint rne_forward (I_ : list SpatialInertia) (s : list vec6)
  (a_grav : SpatialAcceleration) (js : list nat) (st : rne_state) : result rne_state :=
  match js with
  | [] => Ok st
  | j :: rest =>
      st' ← rne_forward_step I_ s a_grav j st;
      rne_forward I_ s a_grav rest st'
  end.

(** One iteration of the backward recursion. *)
Definition rne_backward_step (s : list vec6) (Xup : list SE3) (j : nat)
  (fQ : list SpatialForce * list Q) : result (list SpatialForce * list Q) :=
  let '(f, Qs) := fQ in
  fj ← nth_r f j;
  sj ← nth_r s j;
  Qs' ← set_r Qs j (dot6 (sf_A fj) sj);
  lh ← nth_r (links r) j;
  lj ← deref r lh;
  match parent lj with
  | None => Ok (f, Qs')
  | Some ph =>
      pl ← deref r ph;
      let jp := jindex pl in
      fjp ← nth_j f jp;
      Xupj ← nth_r Xup j;
      fj' ← nth_r f j;
      f' ← set_j f jp (sf_add fjp (sf_xform Xupj fj'));
      Ok (f', Qs')
  end.

(** [for j in reversed(range(0, n))] *)
Fixpoint rne_backward (s : list vec6) (Xup : list SE3) (js : list nat)
  (fQ : list SpatialForce * list Q) : result (list SpatialForce * list Q) :=
  match js with
  | [] => Ok fQ
  | j :: rest =>
      fQ' ← rne_backward_step s Xup j fQ;
      rne_backward s Xup rest fQ'
  end.

(** [rne(q, qd, qdd, symbolic, gravity)]; the array [Q] is allocated
    without values, every entry is written before it is returned. *)
Definition rne : result (list Q) :=
  let n := rn r in
  '(I_, Xtree, s) ← rne_init (links r) SE3_eye 0
      (replicate n si_alloc) (replicate n SE3_alloc) [];
  let a_grav := sa_neg (sa_of3 gravity) in
  st ← rne_forward I_ s a_grav (seq 0 n)
      (mkRneState (replicate n SE3_alloc) (replicate n sv_alloc)
                  (replicate n sa_alloc) (replicate n sf_alloc));
  '(_, Qs) ← rne_backward s (st_Xup st) (rev (seq 0 n)) (st_f st, replicate n 0%Q);
  Ok Qs.
End RNE.

(** ** The base property of ERobot2 *)

(** What may be assigned to [robot.base]. *)
Inductive base_arg : Type :=
| BNone                              (* None *)
| BSE2 (T : SE2)                     (* an SE2 instance *)
| BArray (T : list (list Q))         (* a raw matrix *)
| BOther.                            (* anything else *)

(** [SE2.isvalid] of spatialmath, on raw matrices. *)
Class SE2Check : Type := {
  SE2_isvalid : list (list Q) -> bool
}.

(** The attributes that the property reads and writes; [is_ERobot2] is the
    outcome of [isinstance(self, ERobot2)]. *)
Record Robot2 : Type := mkRobot2 {
  is_ERobot2 : bool;
  _base : option SE2;
  _tool : option SE2
}.

(** [SE2(T, check=True)] on a matrix that [SE2.isvalid] accepts. *)
Definition SE2_new (T : list (list Q)) : SE2 := T.

(** The setter. *)
Definition set_base `{C : SE2Check} (self : Robot2) (T : base_arg) : result Robot2 :=
  match T with
  | BNone => Ok (mkRobot2 (is_ERobot2 self) None (_tool self))
  | _ =>
      if is_ERobot2 self then
        match T with
        | BSE2 t => Ok (mkRobot2 (is_ERobot2 self) (Some t) (_tool self))
        | BArray m =>
            if SE2_isvalid m
            then Ok (mkRobot2 (is_ERobot2 self) (_base self) (Some (SE2_new m)))
            else Ok self
        | _ => Ok self
        end
      else Raise BaseError
  end.

(** The getter: a copy of the base, an identity being stored first when
    there is none. *)
Definition get_base (self : Robot2) : SE2 * Robot2 :=
  match _base self with
  | None => (SE2_eye, mkRobot2 (is_ERobot2 self) (Some SE2_eye) (_tool self))
  | Some b => (b, self)
  end.

(** ** Construction *)

(** Updates of a Link object in the store. *)
Definition with_name (nm : string) (l : Link) : Link :=
  mkLink nm (isjoint l) (jindex l) (parent l) (parent_name l) (children l)
         (auto_jindex l) (collision l) (link_Ts l) (link_A l) (link_m l) (link_r l) (link_v l).
Definition with_parent (p : option handle) (l : Link) : Link :=
  mkLink (name l) (isjoint l) (jindex l) p (parent_name l) (children l)
         (auto_jindex l) (collision l) (link_Ts l) (link_A l) (link_m l) (link_r l) (link_v l).
Definition with_child (c : handle) (l : Link) : Link :=
  mkLink (name l) (isjoint l) (jindex l) (parent l) (parent_name l) (children l ++ [c])
         (auto_jindex l) (collision l) (link_Ts l) (link_A l) (link_m l) (link_r l) (link_v l).
Definition with_jindex (j : option nat) (l : Link) : Link :=
  mkLink (name l) (isjoint l) j (parent l) (parent_name l) (children l)
         (auto_jindex l) (collision l) (link_Ts l) (link_A l) (link_m l) (link_r l) (link_v l).

Definition upd (os : list Link) (h : handle) (f : Link -> Link) : result (list Link) :=
  l ← obj_get os h; Ok (<[h := f l]> os).

Section DFS.
Context {X : Type}.
(** [func], applied to every link that is visited; it may update the
    Link objects and a state of its own. *)
Variable func : option (handle -> list Link * X -> result (list Link * X)).

(** [vis_children] of [dfs_links]; [fuel] bounds the depth of the calls. *)
Fixpoint vis_children (fuel : nat) (link : handle) (st : list handle * (list Link * X))
  : result (list handle * (list Link * X)) :=
  match fuel with
  | O => Diverges
  | S fuel' =>
      let visited := fst st ++ [link] in
      w ← match func with
          | Some f => f link (snd st)
          | None => Ok (snd st)
          end;
      l ← obj_get (fst w) link;
      (fix each (cs : list handle) (st : list handle * (list Link * X)) :=
         match cs with
         | [] => Ok st
         | li :: cs' =>
             if bool_decide (li ∈ fst st) then each cs' st
             else st' ← vis_children fuel' li st; each cs' st'
         end) (children l) (visited, w)
  end.

(** [dfs_links(start, func)]: the links in the order of the visit, and
    what [func] has made of the objects.  The calls of [vis_children] are
    nested one level per link of a branch, each link being visited once:
    the bound on the depth is never reached (see [dfs_links_total]). *)
Definition dfs_links (os : list Link) (x : X) (start : handle)
  : result (list handle * (list Link * X)) :=
  vis_children (S (length os)) start ([], (os, x)).
End DFS.

(** [xs.remove(x)] *)
Fixpoint list_remove (x : handle) (xs : list handle) : result (list handle) :=
  match xs with
  | [] => Raise (ConfigError "gripper link is not one of the links")
  | y :: ys => if decide (x = y) then Ok ys else ys' ← list_remove x ys; Ok (y :: ys')
  end.

(** Steps 1 to 8 of the tree builder follow.  They are modelled from the
    spec, see [Robot_init]. *)

(** Step 1: names, the link dictionary and the number of joints. *)
Fixpoint name_links (k : nat) (ls : list handle) (os : list Link)
  (dict : gmap string handle) (n : nat)
  : result (list Link * gmap string handle * nat) :=
  match ls with
  | [] => Ok (os, dict, n)
  | h :: rest =>
      l ← obj_get os h;
      let nm := if decide (name l = ""%string) then ("link-" +:+ pretty k)%string else name l in
      match dict !! nm with
      | Some _ => Raise (ConfigError "link name is not unique")
      | None =>
          os' ← upd os h (with_name nm);
          name_links (S k) rest os' (<[nm := h]> dict) (count_joint l n)
      end
  end.

(** Step 2: parents that are given by name. *)
Fixpoint resolve_parents (dict : gmap string handle) (ls : list handle) (os : list Link)
  : result (list Link) :=
  match ls with
  | [] => Ok os
  | h :: rest =>
      l ← obj_get os h;
      match parent l, parent_name l with
      | None, Some pn =>
          match dict !! pn with
          | Some p => os' ← upd os h (with_parent (Some p)); resolve_parents dict rest os'
          | None => Raise (ConfigError "parent name is not known")
          end
      | _, _ => resolve_parents dict rest os
      end
  end.

Definition has_parent (os : list Link) (h : handle) : bool :=
  match os !! h with
  | Some l => bool_decide (is_Some (parent l))
  | None => false
  end.

(** Step 3: link [i] is the parent of link [i+1]. *)
Fixpoint chain_parents (prev : handle) (ls : list handle) (os : list Link)
  : result (list Link) :=
  match ls with
  | [] => Ok os
  | h :: rest => os' ← upd os h (with_parent (Some prev)); chain_parents h rest os'
  end.

(** Steps 4 and 5: the base and the children. *)
Fixpoint scan_base (ls : list handle) (os : list Link) (base : option handle)
  : result (list Link * option handle) :=
  match ls with
  | [] => Ok (os, base)
  | h :: rest =>
      l ← obj_get os h;
      match parent l with
      | None =>
          match base with
          | Some _ => Raise (ConfigError "multiple base links")
          | None => scan_base rest os (Some h)
          end
      | Some p => os' ← upd os p (with_child h); scan_base rest os' base
      end
  end.

(** Step 6: one gripper per gripper root. *)
Fixpoint make_grippers (os : list Link) (roots : list handle) (ls : list handle)
  (gs : list Gripper) : result (list handle * list Gripper) :=
  match roots with
  | [] => Ok (ls, gs)
  | root :: rest =>
      '(g_links, _) ← dfs_links (X := unit) None os () root;
      ls' ← foldl (fun acc g => a ← acc; list_remove g a) (Ok ls) g_links;
      rl ← obj_get os root;
      make_grippers os rest ls'
        (gs ++ [mkGripper (length gs) (name rl) g_links SE3_eye (count_joints os g_links)])
  end.

(** Step 7: the end-effectors. *)
Definition find_ee_links (os : list Link) (roots ls : list handle) : list handle :=
  match roots with
  | [] => List.filter (fun h => match os !! h with
                                | Some l => bool_decide (children l = [])
                                | None => false
                                end) ls
  | _ => omap (fun h => l ← os !! h; parent l) roots
  end.

(** Step 8, auto mode: the visit of one link. *)
Definition visit_link (ls : list handle) (h : handle) (st : list Link * (nat * list handle))
  : result (list Link * (nat * list handle)) :=
  let '(os, (j, orlinks)) := st in
  l ← obj_get os h;
  let inl := bool_decide (h ∈ ls) in
  '(os', j') ← (if isjoint l && inl
                then os' ← upd os h (with_jindex (Some j)); Ok (os', S j)
                else Ok (os, j));
  Ok (os', (j', if inl then orlinks ++ [h] else orlinks)).

(** Step 8, explicit mode: the indices are those of [0 .. n-1], once each. *)
Fixpoint check_jindex (os : list Link) (ls : list handle) (jset : gset nat) : result unit :=
  match ls with
  | [] => if decide (jset = ∅) then Ok () else Raise (ConfigError "joints were not assigned")
  | h :: rest =>
      l ← obj_get os h;
      if isjoint l then
        match jindex l with
        | Some j =>
            if decide (j ∈ jset) then check_jindex os rest (jset ∖ {[ j ]})
            else Raise (ConfigError "joint index was repeated or out of range")
        | None => Raise (ConfigError "joint index was repeated or out of range")
        end
      else check_jindex os rest jset
  end.

Definition all_links (os : list Link) (ls : list handle) (P : Link -> bool) : bool :=
  forallb (fun h => match os !! h with Some l => P l | None => false end) ls.

(** Modelled from the spec: [Robot.__init__], the tree builder to which
    [BaseERobot.__init__] hands over and which is not part of this file.
    It follows section 4.1, steps 1 to 8; the joint-limit table of step 9,
    which nothing below reads, is left out.  [os] are the Link objects as
    the caller has made them. *)
Definition Robot_init (os : list Link) (ls : list handle) (gripper_links : list handle)
  (check_joint_index : bool) : result Robot :=
  '(os1, dict, n) ← name_links 0 ls os ∅ 0;
  os2 ← resolve_parents dict ls os1;
  os3 ← (if forallb (fun h => negb (has_parent os2 h)) ls
         then match ls with
              | [] => Ok os2
              | h :: rest => chain_parents h rest os2
              end
         else Ok os2);
  '(os4, base) ← scan_base ls os3 None;
  match base with
  | None => Raise (ConfigError "must have a base link")
  | Some b =>
      '(ls', gs) ← make_grippers os4 gripper_links ls [];
      let n' := n - sum_list (map gn gs) in
      let ee := find_ee_links os4 gripper_links ls' in
      '(os5, orlinks) ←
        (if all_links os4 ls' (fun l => negb (bool_decide (is_Some (jindex l))) || auto_jindex l)
         then
           '(_, (os5, (_, orlinks))) ← dfs_links (Some (visit_link ls')) os4 (0, []) b;
           Ok (os5, orlinks)
         else if all_links os4 ls' (fun l => negb (isjoint l) || bool_decide (is_Some (jindex l)))
         then
           _ ← (if check_joint_index
                then check_jindex os4 ls' (list_to_set (seq 0 n'))
                else Ok ());
           Ok (os4, ls')
         else Raise (ConfigError "all links must have a jindex, or none have a jindex"));
      Ok (mkRobot os5 orlinks gs ee b n' dict ∅ None None None)
  end.

(** [BaseERobot.__init__(links, gripper_links, checkjindex, **kwargs)]: the
    attributes are set to their empty values, [orlinks] stays the empty
    list, and that list is what the constructor of the superclass gets. *)
Definition BaseERobot_init (os : list Link) (links_ : list handle)
  (gripper_links : option (list handle)) (checkjindex : bool) : result Robot :=
  let orlinks : list handle := [] in
  Robot_init os orlinks [] true.

(** ** Links from an ETS *)

(** What a Link takes from the segment of the ETS it is made of. *)
Record LinkETS : Type := mkLinkETS {
  ets_isjoint : bool;
  ets_jindex : option nat;
  ets_auto_jindex : bool;
  ets_Ts : option SE3;
  ets_A : Q -> SE3;
  ets_v : option ET;
  ets_qlim : option (Q * Q)            (* [elink.qlim] as the constructor leaves it *)
}.

(** Modelled from the spec: the constructor [Link(ets, parent=, name=)] of
    the Link class, which is not part of this file.  The new link knows its
    parent; it has no children, no collision shape and no mass yet. *)
Definition Link_new (e : LinkETS) (parent : option handle) (nm : string) : Link :=
  mkLink nm (ets_isjoint e) (ets_jindex e) parent None [] (ets_auto_jindex e) []
         (ets_Ts e) (ets_A e) 0%Q (0, 0, 0)%Q (ets_v e).

(** [elink.qlim], after the test that gives it the limits of the joint
    variable when it has none of its own. *)
Definition link_qlim (e : LinkETS) : option (Q * Q) :=
  match ets_qlim e, ets_v e with
  | None, Some v =>
      match et_qlim v with
      | Some ql => Some ql
      | None => None
      end
  | ql, _ => ql
  end.

(** The loop of [ERobot.__init__] and of [ERobot2.__init__] over the
    segments of an ETS: [links] are the Link objects made so far, each with
    its [qlim]; the new object is the next in the store. *)
Fixpoint ets_loop (segs : list LinkETS) (j : nat) (parent : option handle)
  (links_ : list (Link * option (Q * Q))) : list (Link * option (Q * Q)) :=
  match segs with
  | [] => links_
  | ets_j :: rest =>
      let elink := Link_new ets_j parent ("link" +:+ pretty j) in
      let h := length links_ in
      ets_loop rest (S j) (Some h) (links_ ++ [(elink, link_qlim ets_j)])
  end.

Definition ets_links (segs : list LinkETS) : list (Link * option (Q * Q)) :=
  ets_loop segs 0 None [].

(** The parent which the loop gives to its link number [i], when it starts
    with the parent [first] and a store of [base] objects. *)
Definition chain_parent (first : option handle) (base i : nat) : option handle :=
  match i with
  | O => first
  | S i' => Some (base + i')
  end.

(** ** The tree, as path resolution sees it *)

(** [ascent os s h c b]: following the parent references from [h], the
    links [c] are met, [h] first; the ascent ends at [s] ([b = true]) or at a
    link other than [s] that has no parent ([b = false]). *)
Inductive ascent (os : list Link) (s : handle) : handle -> list handle -> bool -> Prop :=
| ascent_start l :
    os !! s = Some l -> ascent os s s [s] true
| ascent_root h l :
    h <> s -> os !! h = Some l -> parent l = None -> ascent os s h [h] false
| ascent_up h l p c b :
    h <> s -> os !! h = Some l -> parent l = Some p ->
    ascent os s p c b -> ascent os s h (h :: c) b.

(** [s] is [e] or one of its ancestors, [c] being the parent chain from [e]
    up to [s]. *)
Definition parent_chain (os : list Link) (s e : handle) (c : list handle) : Prop :=
  ascent os s e c true.

(** The parent references from [e] reach a link without parent before they
    reach [s]. *)
Definition no_path (os : list Link) (s e : handle) : Prop :=
  is_Some (os !! s) /\ exists c, ascent os s e c false.

(** What the loop of [get_path] returns after the ascent [c], entered with
    [path] and [n]. *)
Definition walk_outcome (os : list Link) (path : list handle) (n : nat)
  (c : list handle) (b : bool) : option (list handle * nat) :=
  if b then Some (path ++ tail c, n + count_joints os (tail c)) else None.

(** The links that a depth-first visit has met so far: each one once, each
    one an object of the store of [n] objects. *)
Definition visited_ok (n : nat) (visited : list handle) : Prop :=
  NoDup visited /\ Forall (fun h => h < n) visited.

(** What a call of [vis_children] without [func] has done when it returns:
    the links it has added come after those that were there, the link of the
    call first, and each of them has its children in the list. *)
Definition visit_done (os : list Link) (visited : list handle) (link : handle)
  (visited' : list handle) : Prop :=
  visited_ok (length os) visited' /\
  (exists ext, visited' = visited ++ link :: ext) /\
  (forall h l c, h ∈ visited' -> h ∉ visited -> os !! h = Some l -> c ∈ children l ->
                 c ∈ visited').

(** A parent reference is a reference to an object. *)
Definition parents_closed (os : list Link) : Prop :=
  forall h l p, os !! h = Some l -> parent l = Some p -> is_Some (os !! p).

(** No two Link objects have the same name. *)
Definition names_unique (os : list Link) : Prop :=
  forall h1 h2 l1 l2,
    os !! h1 = Some l1 -> os !! h2 = Some l2 -> name l1 = name l2 -> h1 = h2.

(** Every entry of the path cache is the outcome of a walk in this tree. *)
Definition cache_ok (r : Robot) : Prop :=
  forall a b path n tool,
    cache_get (_path_cache r) a b = Some (path, n, tool) ->
    exists e s el sl c,
      objs r !! e = Some el /\ objs r !! s = Some sl /\
      name sl = a /\ name el = b /\
      parent_chain (objs r) s e c /\
      path = rev c /\ n = count_joints (objs r) c.

(** The robots [r] and [r'] are the same tree: path resolution has changed
    neither the links nor what the robot knows about them. *)
Definition same_tree (r r' : Robot) : Prop :=
  objs r' = objs r /\ links r' = links r /\ grippers r' = grippers r /\
  ee_links r' = ee_links r /\ base_link r' = base_link r /\ rn r' = rn r /\
  _linkdict r' = _linkdict r.

(** ** The robots of the examples *)

(** A Link as the caller makes it: a name and whether it is a joint. *)
Definition new_link (nm : string) (j : bool) : Link :=
  mkLink nm j None None None [] false [] None (fun _ => SE3_eye) 0%Q (0, 0, 0)%Q None.

(** A Link of a tree that is built. *)
Definition tree_link (nm : string) (j : bool) (ji : option nat) (p : option handle)
  (c : list handle) : Link :=
  mkLink nm j ji p None c false [] None (fun _ => SE3_eye) 0%Q (0, 0, 0)%Q None.

(** [Link(..., parent="name")] *)
Definition with_parent_name (pn : string) (l : Link) : Link :=
  mkLink (name l) (isjoint l) (jindex l) (parent l) (Some pn) (children l)
         (auto_jindex l) (collision l) (link_Ts l) (link_A l) (link_m l) (link_r l) (link_v l).

(** The four links of the class documentation, without parents ... *)
Definition chain4_links : list Link :=
  [new_link "link1" true; new_link "link2" true; new_link "link3" true; new_link "ee" false].

(** ... and the tree which the builder of the spec makes of them. *)
Definition chain4 : Robot :=
  mkRobot
    [ tree_link "link1" true (Some 0) None [1];
      tree_link "link2" true (Some 1) (Some 0) [2];
      tree_link "link3" true (Some 2) (Some 1) [3];
      tree_link "ee" false None (Some 2) [] ]
    [0; 1; 2; 3] [] [3] 0 3
    (list_to_map [("link1"%string, 0); ("link2"%string, 1); ("link3"%string, 2); ("ee"%string, 3)])
    ∅ None None None.

(** A robot with a gripper: two joints, then the two links of the gripper. *)
Definition hand_links : list Link :=
  [new_link "link0" true; new_link "link1" true; new_link "hand" false; new_link "finger" true].

(** [gripper.tool = t] *)
Definition set_gripper_tool (t : SE3) (g : Gripper) : Gripper :=
  mkGripper (gid g) (gname g) (glinks g) t (gn g).

(** The tool of the gripper: a translation along z. *)
Definition tool_z : SE3 :=
  [[1; 0; 0; 0]; [0; 1; 0; 0]; [0; 0; 1; 1]; [0; 0; 0; 1]]%Q.

Definition gripper_robot : Robot :=
  mkRobot
    [ tree_link "link0" true (Some 0) None [1];
      tree_link "link1" true (Some 1) (Some 0) [2];
      tree_link "hand" false None (Some 1) [3];
      tree_link "finger" true None (Some 2) [] ]
    [0; 1] [set_gripper_tool tool_z (mkGripper 0 "hand" [2; 3] SE3_eye 1)] [1] 0 2
    (list_to_map [("link0"%string, 0); ("link1"%string, 1); ("hand"%string, 2); ("finger"%string, 3)])
    ∅ None None None.

(** [link.Ts = Ts] *)
Definition with_Ts (Ts : option SE3) (l : Link) : Link :=
  mkLink (name l) (isjoint l) (jindex l) (parent l) (parent_name l) (children l)
         (auto_jindex l) (collision l) Ts (link_A l) (link_m l) (link_r l) (link_v l).

(** The robot in which the constant [Ts] of every link [l] is [f l]. *)
Definition retarget (f : Link -> option SE3) (r : Robot) : Robot :=
  mkRobot (map (fun l => with_Ts (f l) l) (objs r)) (links r) (grippers r) (ee_links r)
          (base_link r) (rn r) (_linkdict r) (_path_cache r)
          (_cache_end r) (_cache_end_tool r) (_cache_start r).

(** The four-link chain with collision shapes: two on the third link, of
    which the first is near the obstacle, and one on the last link. *)
Definition with_collision (cs : list Shape) (l : Link) : Link :=
  mkLink (name l) (isjoint l) (jindex l) (parent l) (parent_name l) (children l)
         (auto_jindex l) cs (link_Ts l) (link_A l) (link_m l) (link_r l) (link_v l).

Definition near_shape : Shape := mkShape 0 ((0, 0, 0), (0, 0, 0))%Q SE3_eye.
Definition far_shape : Shape := mkShape 1 ((0, 0, 0), (0, 0, 0))%Q SE3_eye.
Definition obstacle : Shape := mkShape 9 ((0, 0, 2), (0, 0, 0))%Q SE3_eye.

Definition chain4_shapes : Robot :=
  mkRobot
    [ tree_link "link1" true (Some 0) None [1];
      tree_link "link2" true (Some 1) (Some 0) [2];
      with_collision [near_shape; far_shape] (tree_link "link3" true (Some 2) (Some 1) [3]);
      with_collision [far_shape] (tree_link "ee" false None (Some 2) []) ]
    [0; 1; 2; 3] [] [3] 0 3
    (list_to_map [("link1"%string, 0); ("link2"%string, 1); ("link3"%string, 2); ("ee"%string, 3)])
    ∅ None None None.

(** A geometry for the examples: the near shape is at the distance 1/20
    below the obstacle, the other shapes are out of reach; the Jacobian has
    two columns. *)
Definition example_kinematics : Kinematics :=
  {| closest_point := fun col _ _ =>
       if (shape_id col =? 0)%nat
       then Some (1 # 20, (0, 0, 0), (0, 0, 1 # 20))%Q
       else None;
     jacobe := fun _ _ _ _ _ =>
       Ok [((1, 0, 0), (0, 0, 0))%Q; ((0, 0, 1), (0, 0, 0))%Q] |}.

(** What the damper sees of the chain with shapes: the robot after the
    resolution of the path, and the pairs along the path. *)
Definition chain4_shapes_resolved : Robot :=
  snd (get_path (snd (_get_limit_links chain4_shapes DNone DNone)) (DLink 3) (DLink 0)).

Definition chain4_shapes_pairs : list (handle * Shape) :=
  [(2, near_shape); (2, far_shape); (3, far_shape)].

(** A fixed link followed by a joint: the robot of one joint on which rne
    is looked at.  [TsF] and [AF] are the transform of the fixed link, [AJ]
    is the transform of the joint. *)
Definition fixed_then_joint (TsF : option SE3) (AF AJ : Q -> SE3) (m : Q) (c : vec3)
  (s0 : vec6) : Robot :=
  mkRobot
    [ mkLink "mount" false None None None [1] false [] TsF AF 0%Q (0, 0, 0)%Q None;
      mkLink "arm" true (Some 0) (Some 0) None [] false [] None AJ m c (Some (mkET s0 None)) ]
    [0; 1] [] [1] 0 1
    (list_to_map [("mount"%string, 0); ("arm"%string, 1)])
    ∅ None None None.

(** A check of raw matrices for the examples: three rows of three, the last
    one being [0 0 1]. *)
Definition example_SE2Check : SE2Check :=
  {| SE2_isvalid := fun m =>
       match m with
       | [[_; _; _]; [_; _; _]; [a; b; c]] =>
           Qeq_bool a 0 && Qeq_bool b 0 && Qeq_bool c 1
       | _ => false
       end |}.

(** The robot with a gripper as the builder of the spec makes it, before
    the tool of the gripper is set. *)
Definition hand_robot : Robot :=
  mkRobot (objs gripper_robot) (links gripper_robot)
    [mkGripper 0 "hand" [2; 3] SE3_eye 1] (ee_links gripper_robot)
    (base_link gripper_robot) (rn gripper_robot) (_linkdict gripper_robot)
    ∅ None None None.

(** The four-link chain after a first request, from the base to ["ee"]. *)
Definition chain4_warm : Robot := snd (get_path chain4 (DName "ee") DNone).

(** A spatial algebra for the examples: six-vectors throughout, a point
    mass as inertia, and transforms that leave the vectors as they are. *)
Definition vadd6 (a b : vec6) : vec6 := (vadd3 (fst a) (fst b), vadd3 (snd a) (snd b)).
Definition zero6 : vec6 := ((0, 0, 0), (0, 0, 0))%Q.

Definition example_algebra : SpatialAlgebra :=
  {| SpatialVelocity := vec6;
     SpatialAcceleration := vec6;
     SpatialForce := vec6;
     SpatialMomentum := vec6;
     SpatialInertia := Q;
     SE3_mul := fun a _ => a;
     SE3_inv := fun a => a;
     SE3_alloc := SE3_eye;
     sv_of := fun x => x;
     sv_alloc := zero6;
     sv_add := vadd6;
     sv_xform := fun _ v => v;
     sv_cross := fun _ _ => zero6;
     sa_of := fun x => x;
     sa_of3 := fun g => (g, (0, 0, 0)%Q);
     sa_alloc := zero6;
     sa_neg := vscale6 (-1);
     sa_add := vadd6;
     sa_xform := fun _ a => a;
     si_of := fun m _ => m;
     si_alloc := 0%Q;
     si_mul_a := vscale6;
     si_mul_v := vscale6;
     sv_cross_m := fun _ _ => zero6;
     sf_alloc := zero6;
     sf_add := vadd6;
     sf_xform := fun _ f => f;
     sf_A := fun f => f |}.

(** A mount and an arm of mass 2 that slides along z. *)
Definition slider : Robot :=
  fixed_then_joint None (fun _ => SE3_eye) (fun _ => SE3_eye) 2 (0, 0, 0)%Q
                   ((0, 0, 1), (0, 0, 0))%Q.

(** The four-link chain with a joint count that is one too small. *)
Definition chain4_n2 : Robot :=
  mkRobot (objs chain4) (links chain4) (grippers chain4) (ee_links chain4)
          (base_link chain4) 2 (_linkdict chain4) ∅ None None None.

(** Three segments for the examples: two joints and a fixed end. *)
Definition example_segments : list LinkETS :=
  [ mkLinkETS true None true None (fun _ => SE3_eye)
              (Some (mkET ((0, 0, 0), (0, 0, 1))%Q (Some (0, 1)%Q))) None;
    mkLinkETS true None true None (fun _ => SE3_eye)
              (Some (mkET ((0, 0, 0), (0, 1, 0))%Q None)) None;
    mkLinkETS false None true (Some tool_z) (fun _ => tool_z) None None ].

(** * Properties *)

(** ** Parent chains *)

Lemma ascent_det os s h c b c' b' :
  ascent os s h c b -> ascent os s h c' b' -> c = c' /\ b = b'.
Proof.
  intros H; revert c' b'.
  induction H as [l Hl | h l Hne Hl Hp | h l p c b Hne Hl Hp Hc IH];
    intros c' b' H'; inversion H'; subst; try congruence; auto.
  match goal with
  | Hq : parent _ = Some ?p0, Ha : ascent _ _ ?p0 _ _ |- _ =>
      assert (p = p0) by congruence; subst p0;
      destruct (IH _ _ Ha) as [-> ->]; auto
  end.
Qed.

Lemma ascent_head os s h c b :
  ascent os s h c b -> exists l c', os !! h = Some l /\ c = h :: c'.
Proof. destruct 1; eauto. Qed.

Lemma ascent_valid os s h c b :
  ascent os s h c b -> Forall (fun x => x < length os) c.
Proof.
  induction 1; repeat constructor; eauto using lookup_lt_Some.
Qed.

Lemma ascent_suffix os s h c b x :
  ascent os s h c b -> x ∈ c ->
  exists c', ascent os s x c' b /\ length c' <= length c.
Proof.
  induction 1 as [l Hl | h l Hne Hl Hp | h l p c b Hne Hl Hp Hc IH]; intros Hx.
  - apply list_elem_of_singleton in Hx as ->. eexists; split; [econstructor; eauto | done].
  - apply list_elem_of_singleton in Hx as ->. eexists; split; [econstructor; eauto | done].
  - apply elem_of_cons in Hx as [-> | Hx].
    + eexists; split; [eapply ascent_up; eauto | done].
    + destruct (IH Hx) as (c' & Hc' & Hlen). exists c'; split; [done | simpl; lia].
Qed.

Lemma ascent_NoDup os s h c b : ascent os s h c b -> NoDup c.
Proof.
  induction 1 as [l Hl | h l Hne Hl Hp | h l p c b Hne Hl Hp Hc IH].
  - apply NoDup_singleton.
  - apply NoDup_singleton.
  - constructor; [| done]. intros Hin.
    destruct (ascent_suffix _ _ _ _ _ _ Hc Hin) as (c' & Hc' & Hlen).
    assert (Hup : ascent os s h (h :: c) b) by (eapply ascent_up; eauto).
    destruct (ascent_det _ _ _ _ _ _ _ Hup Hc') as [<- _]. simpl in Hlen. lia.
Qed.

(** An ascent meets every link once at most: it is not longer than the
    store. *)
Lemma ascent_length os s h c b : ascent os s h c b -> length c <= length os.
Proof.
  intros H.
  assert (Hle : length c <= length (seq 0 (length os))); [| by rewrite length_seq in Hle].
  apply NoDup_incl_length.
  - apply NoDup_ListNoDup. eapply ascent_NoDup; eauto.
  - intros x Hx. apply in_seq. apply ascent_valid in H.
    rewrite Forall_forall in H. apply list_elem_of_In in Hx. specialize (H x Hx). lia.
Qed.

(** ** The walk of [get_path] *)

Lemma count_joints_cons os h c l :
  os !! h = Some l -> count_joints os (h :: c) = count_joint l (count_joints os c).
Proof.
  intros Hl. unfold count_joints, count_joint. simpl. rewrite Hl.
  destruct (isjoint l); reflexivity.
Qed.

Lemma count_joint_add l n m : count_joint l n + m = n + count_joint l m.
Proof. unfold count_joint. destruct (isjoint l); lia. Qed.

Lemma walk_ascent r s h c b :
  ascent (objs r) s h c b ->
  forall fuel path n, length c <= fuel ->
    walk r fuel s h path n = Ok (walk_outcome (objs r) path n c b).
Proof.
  induction 1 as [l Hl | h l Hne Hl Hp | h l p c b Hne Hl Hp Hc IH];
    intros fuel path n Hfuel.
  - destruct fuel; simpl; rewrite decide_True by done;
      unfold walk_outcome, count_joints; simpl; rewrite app_nil_r, Nat.add_0_r; done.
  - destruct fuel as [| fuel]; [simpl in Hfuel; lia |].
    simpl. rewrite decide_False by done.
    unfold deref, obj_get. rewrite Hl. simpl. rewrite Hp. done.
  - destruct fuel as [| fuel]; [simpl in Hfuel; lia |].
    destruct (ascent_head _ _ _ _ _ Hc) as (pl & c' & Hpl & ->).
    simpl. rewrite decide_False by done.
    unfold deref, obj_get. rewrite Hl. simpl. rewrite Hp, Hpl. simpl.
    fold (deref r). rewrite IH by (simpl in *; lia).
    unfold walk_outcome. destruct b; [| done]. simpl.
    rewrite <- app_assoc. simpl.
    rewrite (count_joints_cons _ _ _ _ Hpl), count_joint_add. done.
Qed.

Lemma walk_sound r fuel s :
  forall h path n w,
    is_Some (objs r !! h) ->
    walk r fuel s h path n = Ok w ->
    exists c b, ascent (objs r) s h c b /\ w = walk_outcome (objs r) path n c b.
Proof.
  induction fuel as [| fuel IH]; intros h path n w [l Hl] Hw; simpl in Hw.
  - destruct (decide (h = s)) as [-> | Hne]; [| done].
    injection Hw as <-. exists [s], true. split; [by econstructor |].
    unfold walk_outcome, count_joints. simpl. by rewrite app_nil_r, Nat.add_0_r.
  - destruct (decide (h = s)) as [-> | Hne].
    + injection Hw as <-. exists [s], true. split; [by econstructor |].
      unfold walk_outcome, count_joints. simpl. by rewrite app_nil_r, Nat.add_0_r.
    + unfold deref, obj_get in Hw. rewrite Hl in Hw. simpl in Hw.
      destruct (parent l) as [p |] eqn:Hp.
      * destruct (objs r !! p) as [pl |] eqn:Hpl; [| done]. simpl in Hw.
        fold (deref r) in Hw.
        destruct (IH p _ _ _ (ltac:(eauto)) Hw) as (c & b & Hc & ->).
        exists (h :: c), b. split; [eapply ascent_up; eauto |].
        destruct (ascent_head _ _ _ _ _ Hc) as (pl' & c' & Hpl' & ->).
        unfold walk_outcome. destruct b; [| done]. simpl.
        rewrite <- app_assoc. simpl.
        rewrite (count_joints_cons _ _ _ _ Hpl), count_joint_add. done.
      * injection Hw as <-. exists [h], false. split; [by econstructor | done].
Qed.

(** The walk of a cache miss, from the end link. *)
Lemma resolve_walk_ascent r fuel e s c b :
  ascent (objs r) s e c b -> length c <= fuel ->
  resolve_walk r fuel e s
  = Ok (if b then Some (c, count_joints (objs r) c) else None).
Proof.
  intros Hc Hfuel. unfold resolve_walk.
  destruct (ascent_head _ _ _ _ _ Hc) as (el & c' & Hel & ->).
  unfold deref at 1, obj_get. rewrite Hel. simpl.
  rewrite (walk_ascent _ _ _ _ _ Hc) by done.
  unfold walk_outcome. destruct b; [| done]. simpl.
  rewrite (count_joints_cons _ _ _ _ Hel).
  unfold count_joint. destruct (isjoint el); simpl; done.
Qed.

Lemma resolve_walk_sound r fuel e s w :
  resolve_walk r fuel e s = Ok w ->
  exists c b, ascent (objs r) s e c b /\
              w = if b then Some (c, count_joints (objs r) c) else None.
Proof.
  unfold resolve_walk. unfold deref at 1, obj_get.
  destruct (objs r !! e) as [el |] eqn:Hel; [| done]. simpl. intros Hw.
  destruct (walk_sound _ _ _ _ _ _ _ (ltac:(eauto)) Hw) as (c & b & Hc & ->).
  exists c, b. split; [done |].
  destruct (ascent_head _ _ _ _ _ Hc) as (el' & c' & Hel' & ->).
  unfold walk_outcome. destruct b; [| done]. simpl.
  rewrite (count_joints_cons _ _ _ _ Hel).
  unfold count_joint. destruct (isjoint el); simpl; done.
Qed.

(** The bound on the loop that [get_path] uses loses nothing: a walk that
    ends at all ends within [length (objs r)] iterations. *)
Lemma walk_fuel_enough r fuel e s w :
  resolve_walk r fuel e s = Ok w ->
  resolve_walk r (length (objs r)) e s = Ok w.
Proof.
  intros Hw. destruct (resolve_walk_sound _ _ _ _ _ Hw) as (c & b & Hc & ->).
  apply resolve_walk_ascent; [done |]. eapply ascent_length; eauto.
Qed.

(** ** A walk that does not end *)

Lemma walk_closed r fuel s :
  parents_closed (objs r) ->
  forall h path n x, is_Some (objs r !! h) -> walk r fuel s h path n <> Raise x.
Proof.
  intros Hcl. induction fuel as [| fuel IH]; intros h path n x [l Hl]; simpl.
  - by destruct (decide (h = s)).
  - destruct (decide (h = s)); [done |].
    unfold deref, obj_get. rewrite Hl. simpl.
    destruct (parent l) as [p |] eqn:Hp; [| done].
    destruct (Hcl _ _ _ Hl Hp) as [pl Hpl]. rewrite Hpl. simpl.
    apply IH. eauto.
Qed.

(** When the parent references lead neither to [start] nor to a link
    without parent within as many steps as there are objects, they never do:
    the loop of [get_path] does not end, whatever the bound. *)
Lemma walk_diverges r e s :
  parents_closed (objs r) ->
  resolve_walk r (length (objs r)) e s = Diverges ->
  forall fuel, resolve_walk r fuel e s = Diverges.
Proof.
  intros Hcl Hdiv fuel.
  destruct (resolve_walk r fuel e s) as [w | x |] eqn:Hw; [| | done].
  - apply walk_fuel_enough in Hw. congruence.
  - exfalso. revert Hw Hdiv. unfold resolve_walk, deref, obj_get.
    destruct (objs r !! e) as [el |] eqn:Hel; simpl; [| done].
    intros Hw _. eapply walk_closed; eauto.
Qed.

(** ** Resolution of the end points *)

Lemma same_tree_refl r : same_tree r r.
Proof. by repeat split. Qed.

Lemma same_tree_trans r1 r2 r3 : same_tree r1 r2 -> same_tree r2 r3 -> same_tree r1 r3.
Proof.
  unfold same_tree. intros (?&?&?&?&?&?&?) (?&?&?&?&?&?&?).
  repeat split; congruence.
Qed.

(** [_get_limit_links] writes the three [_cache_*] attributes only. *)
Lemma get_limit_links_frame r end_ start x r1 :
  _get_limit_links r end_ start = (x, r1) ->
  same_tree r r1 /\ _path_cache r1 = _path_cache r.
Proof.
  unfold _get_limit_links. intros H.
  repeat (case_match; simplify_eq; try done);
    by (split; [apply same_tree_refl || by repeat split | done]).
Qed.

Lemma cache_ok_frame r r' :
  objs r' = objs r -> _path_cache r' = _path_cache r -> cache_ok r -> cache_ok r'.
Proof. unfold cache_ok. intros -> ->. done. Qed.

(** A robot that has resolved no path yet. *)
Lemma cache_ok_empty r : _path_cache r = ∅ -> cache_ok r.
Proof.
  intros He a b path n tool. rewrite He. unfold cache_get.
  by rewrite lookup_empty.
Qed.

(** ** The path cache *)

Lemma cache_get_touch c a x y : cache_get (cache_touch c a) x y = cache_get c x y.
Proof.
  unfold cache_get, cache_touch. destruct (c !! a) eqn:Ha; [done |].
  destruct (decide (a = x)) as [-> | Hne].
  - by rewrite lookup_insert_eq, Ha, lookup_empty.
  - by rewrite lookup_insert_ne.
Qed.

Lemma cache_put_touch c a b t :
  exists c', cache_put (cache_touch c a) a b t = Ok c' /\
    forall x y, cache_get c' x y
                = if decide (x = a /\ y = b) then Some t else cache_get c x y.
Proof.
  unfold cache_put.
  destruct (cache_touch c a !! a) as [inner |] eqn:Hin.
  - eexists; split; [done |]. intros x y.
    assert (Hget : forall y, inner !! y = cache_get c a y).
    { intros y'. rewrite <- (cache_get_touch c a a y'). unfold cache_get. by rewrite Hin. }
    unfold cache_get at 1.
    destruct (decide (x = a)) as [-> | Hne].
    + rewrite lookup_insert_eq.
      destruct (decide (y = b)) as [-> | Hne'].
      * rewrite lookup_insert_eq. by rewrite decide_True.
      * rewrite lookup_insert_ne by done. rewrite decide_False by (intros [_ ?]; done). apply Hget.
    + rewrite lookup_insert_ne by done. rewrite decide_False by (intros [? _]; done).
      rewrite <- (cache_get_touch c a x y). done.
  - exfalso. unfold cache_touch in Hin. destruct (c !! a) eqn:Ha.
    + congruence.
    + by rewrite lookup_insert_eq in Hin.
Qed.

(** ** [get_path], case by case *)

Section GetPath.
Variables (r r1 : Robot) (end_ start : designator).
Variables (e s : handle) (tool : option SE3) (el sl : Link).
Hypothesis Hlim : _get_limit_links r end_ start = (Ok (e, s, tool), r1).
Hypothesis Hel : objs r !! e = Some el.
Hypothesis Hsl : objs r !! s = Some sl.

Lemma get_limit_links_objs : objs r1 = objs r /\ _path_cache r1 = _path_cache r.
Proof using Hlim. by destruct (get_limit_links_frame _ _ _ _ _ Hlim) as [(? & _) ?]. Qed.

(** A cache hit: the stored tuple is returned as it is, whatever the
    parent references are. *)
Lemma get_path_hit t :
  cache_get (_path_cache r) (name sl) (name el) = Some t ->
  get_path r end_ start = (Ok t, r1).
Proof using Hlim Hel Hsl.
  intros Ht. destruct get_limit_links_objs as [Hobjs Hcache].
  unfold get_path, get_path_fuel. rewrite Hlim.
  unfold deref, obj_get. rewrite Hobjs, Hsl, Hel, Hcache, Ht. done.
Qed.

(** A cache miss, when the walk reaches [start]. *)
Lemma get_path_miss_chain c :
  cache_get (_path_cache r) (name sl) (name el) = None ->
  parent_chain (objs r) s e c ->
  exists r',
    get_path r end_ start
    = (Ok (rev c, count_joints (objs r) c, default SE3_eye tool), r') /\
    same_tree r r' /\
    forall x y, cache_get (_path_cache r') x y
                = if decide (x = name sl /\ y = name el)
                  then Some (rev c, count_joints (objs r) c, default SE3_eye tool)
                  else cache_get (_path_cache r) x y.
Proof using Hlim Hel Hsl.
  intros Hmiss Hc. destruct get_limit_links_objs as [Hobjs Hcache].
  unfold get_path, get_path_fuel. rewrite Hlim.
  unfold deref, obj_get. rewrite Hobjs, Hsl, Hel, Hcache, Hmiss.
  set (r2 := set_path_cache r1 _).
  assert (Hobjs2 : objs r2 = objs r) by done.
  rewrite (resolve_walk_ascent r2 _ e s c true)
    by (rewrite ?Hobjs2; first [done | eapply ascent_length; eauto]).
  rewrite Hobjs2. simpl _path_cache.
  destruct (cache_put_touch (_path_cache r) (name sl) (name el)
              (rev c, count_joints (objs r) c, default SE3_eye tool)) as (c' & -> & Hget).
  eexists; split; [done |]. split; [| done].
  destruct (get_limit_links_frame _ _ _ _ _ Hlim) as [Hsame _].
  unfold same_tree in *. simpl. done.
Qed.

(** A cache miss, when the walk reaches a link without parent. *)
Lemma get_path_miss_root c :
  cache_get (_path_cache r) (name sl) (name el) = None ->
  ascent (objs r) s e c false ->
  exists r',
    get_path r end_ start = (Raise (NoPathError (name sl) (name el)), r') /\
    same_tree r r' /\
    forall x y, cache_get (_path_cache r') x y = cache_get (_path_cache r) x y.
Proof using Hlim Hel Hsl.
  intros Hmiss Hc. destruct get_limit_links_objs as [Hobjs Hcache].
  unfold get_path, get_path_fuel. rewrite Hlim.
  unfold deref, obj_get. rewrite Hobjs, Hsl, Hel, Hcache, Hmiss.
  set (r2 := set_path_cache r1 _).
  assert (Hobjs2 : objs r2 = objs r) by done.
  rewrite (resolve_walk_ascent r2 _ e s c false)
    by (rewrite ?Hobjs2; first [done | eapply ascent_length; eauto]).
  eexists; split; [done |]. split.
  - destruct (get_limit_links_frame _ _ _ _ _ Hlim) as [Hsame _].
    unfold same_tree in *. simpl. done.
  - intros x y. simpl. apply cache_get_touch.
Qed.

(** The uncached resolution, in the same two cases. *)
Lemma get_path_nocache_chain c :
  parent_chain (objs r) s e c ->
  get_path_nocache r end_ start
  = Ok (rev c, count_joints (objs r) c, default SE3_eye tool).
Proof using Hlim Hel Hsl.
  intros Hc. destruct get_limit_links_objs as [Hobjs Hcache].
  unfold get_path_nocache. rewrite Hlim.
  unfold deref, obj_get. rewrite Hobjs, Hsl, Hel. simpl.
  rewrite (resolve_walk_ascent r1 _ e s c true)
    by (rewrite ?Hobjs; first [done | eapply ascent_length; eauto]).
  simpl. by rewrite Hobjs.
Qed.
End GetPath.

Lemma ascent_start_valid os s h c :
  ascent os s h c true -> is_Some (os !! s).
Proof.
  remember true as b eqn:Hb. induction 1; eauto; discriminate.
Qed.

Lemma count_joints_rev os c : count_joints os (rev c) = count_joints os c.
Proof. unfold count_joints. by rewrite List.filter_rev, length_rev. Qed.

(** In a tree with unique names, a cache entry under the names of two links
    is the walk between these two links. *)
Lemma cache_ok_entry r e s el sl path n tool :
  names_unique (objs r) -> cache_ok r ->
  objs r !! e = Some el -> objs r !! s = Some sl ->
  cache_get (_path_cache r) (name sl) (name el) = Some (path, n, tool) ->
  exists c, parent_chain (objs r) s e c /\ path = rev c /\ n = count_joints (objs r) c.
Proof.
  intros Hu Hok Hel Hsl Hget.
  destruct (Hok _ _ _ _ _ Hget) as (e' & s' & el' & sl' & c & He' & Hs' & Hns & Hne & Hc & -> & ->).
  assert (e' = e) as -> by (eapply Hu; eauto).
  assert (s' = s) as -> by (eapply Hu; eauto).
  eauto.
Qed.

(** [get_path] leaves the tree as it is and keeps the cache sound. *)
Lemma get_path_preserves r end_ start x r' :
  get_path r end_ start = (x, r') ->
  same_tree r r' /\ (cache_ok r -> cache_ok r').
Proof.
  unfold get_path, get_path_fuel.
  destruct (_get_limit_links r end_ start) as [lim r1] eqn:Hlim.
  destruct (get_limit_links_frame _ _ _ _ _ Hlim) as [Hsame Hcache].
  assert (Hobjs : objs r1 = objs r) by apply Hsame.
  assert (Hframe : cache_ok r -> cache_ok r1) by (apply cache_ok_frame; done).
  destruct lim as [[[e s] tool] | |]; [| by intros [= <- <-] ..].
  unfold deref, obj_get.
  destruct (objs r1 !! s) as [sl |] eqn:Hsl; [| by intros [= <- <-]].
  destruct (objs r1 !! e) as [el |] eqn:Hel; [| by intros [= <- <-]].
  destruct (cache_get (_path_cache r1) (name sl) (name el)) as [t |] eqn:Hget;
    [by intros [= <- <-] |].
  set (r2 := set_path_cache r1 _).
  assert (Hsame2 : same_tree r r2) by (unfold same_tree in *; simpl; done).
  assert (Hok2 : cache_ok r -> cache_ok r2).
  { intros Hok a b path n tl. simpl. rewrite cache_get_touch. rewrite Hobjs.
    intros Hab. apply (Hframe Hok) in Hab. by rewrite Hobjs in Hab. }
  destruct (resolve_walk r2 (length (objs r)) e s) as [[[path n] |] | |] eqn:Hw;
    [| by intros [= <- <-] ..].
  destruct (cache_put_touch (_path_cache r1) (name sl) (name el)
              (rev path, n, default SE3_eye tool)) as (c' & Hput & Hc').
  simpl _path_cache. rewrite Hput. intros [= <- <-].
  split; [unfold same_tree in *; simpl; done |].
  intros Hok a b path' n' tl'. simpl. rewrite Hc'. rewrite Hobjs.
  case_decide as Hd.
  - destruct Hd as [-> ->]. intros [= <- <- <-].
    destruct (resolve_walk_sound _ _ _ _ _ Hw) as (c & b & Hc & Hb).
    destruct b; [| done]. injection Hb as -> ->.
    exists e, s, el, sl, c. simpl in Hc. rewrite Hobjs in *. done.
  - intros Hab. apply (Hframe Hok) in Hab. by rewrite Hobjs in Hab.
Qed.

(** ** The tool of a resolution that misses the cache *)

Lemma gripper_tool_acc gs d acc :
  (forall g, g ∈ gs -> names_gripper d g = false) ->
  fold_left (fun tool g => if names_gripper d g then Some (gtool g) else tool) gs acc = acc.
Proof.
  revert acc. induction gs as [| g gs IH]; intros acc Hno; cbn [fold_left]; [done |].
  rewrite (Hno g) by (left; done). apply IH. intros g' Hg'. apply Hno. by right.
Qed.

(** An end given as a Link matches no gripper. *)
Lemma gripper_tool_link gs h : gripper_tool gs (DLink h) = None.
Proof. unfold gripper_tool. by apply gripper_tool_acc. Qed.

(** An end given as a Gripper of the robot gets the tool of that gripper. *)
Lemma gripper_tool_gripper gs g :
  NoDup (map gid gs) -> g ∈ gs -> gripper_tool gs (DGripper (gid g)) = Some (gtool g).
Proof.
  unfold gripper_tool. generalize (@None SE3).
  induction gs as [| g0 gs IH]; intros acc Hnd Hin; [by apply elem_of_nil in Hin |].
  cbn [map] in Hnd. apply NoDup_cons in Hnd as [Hfresh Hnd].
  cbn [fold_left].
  apply elem_of_cons in Hin as [<- | Hin].
  - replace (names_gripper (DGripper (gid g)) g) with true
      by (cbn [names_gripper]; by rewrite Nat.eqb_refl).
    apply gripper_tool_acc.
    intros g' Hg'. cbn [names_gripper]. apply Nat.eqb_neq. intros Heq.
    apply Hfresh. rewrite Heq. change (map gid gs) with (gid <$> gs).
    by apply list_elem_of_fmap_2.
  - by apply IH.
Qed.

Lemma get_limit_links_link r h start e s tool r1 :
  _get_limit_links r (DLink h) start = (Ok (e, s, tool), r1) -> e = h /\ tool = None.
Proof.
  unfold _get_limit_links. rewrite gripper_tool_link. cbn [_getlink].
  destruct (_ || _); cbn [mbind result_bind]; [| by destruct start].
  destruct start; cbn [mbind result_bind].
  - by intros [= <- _ <- _].
  - destruct (_getlink r (DLink h0)); cbn [mbind result_bind]; [| done ..].
    by intros [= <- _ <- _].
  - destruct (_getlink r (DName s0)); cbn [mbind result_bind]; [| done ..].
    by intros [= <- _ <- _].
  - destruct (_getlink r (DGripper g)); cbn [mbind result_bind]; [| done ..].
    by intros [= <- _ <- _].
Qed.

Lemma get_limit_links_gripper r g start e s tool r1 :
  NoDup (map gid (grippers r)) -> g ∈ grippers r ->
  _get_limit_links r (DGripper (gid g)) start = (Ok (e, s, tool), r1) ->
  tool = Some (gtool g).
Proof.
  intros Hnd Hin. unfold _get_limit_links. rewrite (gripper_tool_gripper _ _ Hnd Hin).
  destruct (_getlink r (DGripper (gid g))); cbn [mbind result_bind]; [| by destruct start ..].
  destruct start; cbn [mbind result_bind].
  - by intros [= _ _ <- _].
  - destruct (_getlink r (DLink h)); cbn [mbind result_bind]; [| done ..].
    by intros [= _ _ <- _].
  - destruct (_getlink r (DName s0)); cbn [mbind result_bind]; [| done ..].
    by intros [= _ _ <- _].
  - destruct (_getlink r (DGripper g0)); cbn [mbind result_bind]; [| done ..].
    by intros [= _ _ <- _].
Qed.

(** On a miss of the cache the tool is as the request asks: the tool of the
    gripper for an end given as a Gripper of the robot, the identity for an
    end given as a Link. *)
Lemma get_path_miss_tool r end_ start e s tool r1 el sl c :
  _get_limit_links r end_ start = (Ok (e, s, tool), r1) ->
  objs r !! e = Some el -> objs r !! s = Some sl ->
  cache_get (_path_cache r) (name sl) (name el) = None ->
  parent_chain (objs r) s e c ->
  (forall h, end_ = DLink h ->
     fst (get_path r end_ start) = Ok (rev c, count_joints (objs r) c, SE3_eye)) /\
  (forall g, end_ = DGripper (gid g) -> NoDup (map gid (grippers r)) -> g ∈ grippers r ->
     fst (get_path r end_ start) = Ok (rev c, count_joints (objs r) c, gtool g)).
Proof.
  intros Hlim Hel Hsl Hmiss Hc.
  destruct (get_path_miss_chain _ _ _ _ _ _ _ _ _ Hlim Hel Hsl c Hmiss Hc) as (r' & -> & _).
  split.
  - intros h ->. by destruct (get_limit_links_link _ _ _ _ _ _ _ Hlim) as [_ ->].
  - intros g -> Hnd Hin. by rewrite (get_limit_links_gripper _ _ _ _ _ _ _ Hnd Hin Hlim).
Qed.

(** ** Path resolution: the claims *)

(** It suffices that the list of the names has no duplicate. *)
Lemma names_unique_NoDup os : NoDup (map name os) -> names_unique os.
Proof.
  intros Hnd h1 h2 l1 l2 H1 H2 Hn.
  apply (NoDup_lookup _ h1 h2 (name l1) Hnd).
  - change (map name os) with (name <$> os). by rewrite list_lookup_fmap, H1.
  - change (map name os) with (name <$> os). by rewrite list_lookup_fmap, H2, Hn.
Qed.

Lemma chain4_names_unique : names_unique (objs chain4).
Proof.
  apply names_unique_NoDup.
  apply (bool_decide_unpack (NoDup (map name (objs chain4)))).
  vm_compute. done.
Qed.

Lemma chain4_chain : parent_chain (objs chain4) 0 3 [3; 2; 1; 0].
Proof.
  unfold parent_chain.
  eapply ascent_up; [done | reflexivity | reflexivity |].
  eapply ascent_up; [done | reflexivity | reflexivity |].
  eapply ascent_up; [done | reflexivity | reflexivity |].
  eapply ascent_start. reflexivity.
Qed.

(** C1: when [start] is [end] or one of its ancestors, [get_path] returns the
    parent chain from [end] up to [start], reversed into base-to-tip order,
    together with the number of joints among the links of that path. *)
Theorem get_path_parent_chain r end_ start e s tool r1 c :
  names_unique (objs r) -> cache_ok r ->
  _get_limit_links r end_ start = (Ok (e, s, tool), r1) ->
  parent_chain (objs r) s e c ->
  exists tool' r',
    get_path r end_ start
    = (Ok (rev c, count_joints (objs r) (rev c), tool'), r').
Proof.
  intros Hu Hok Hlim Hc. rewrite count_joints_rev.
  destruct (ascent_head _ _ _ _ _ Hc) as (el & c0 & Hel & _).
  destruct (ascent_start_valid _ _ _ _ Hc) as [sl Hsl].
  destruct (cache_get (_path_cache r) (name sl) (name el)) as [[[path n] tl] |] eqn:Hget.
  - destruct (cache_ok_entry _ _ _ _ _ _ _ _ Hu Hok Hel Hsl Hget) as (c' & Hc' & -> & ->).
    destruct (ascent_det _ _ _ _ _ _ _ Hc Hc') as [<- _].
    exists tl, r1. eapply get_path_hit; eauto.
  - destruct (get_path_miss_chain _ _ _ _ _ _ _ _ _ Hlim Hel Hsl c Hget Hc) as (r' & Hr' & _).
    eauto.
Qed.

(** The four-link chain of the documentation: the path from the base to
    ["ee"] is [link1, link2, link3, ee], with its three joints. *)
Lemma get_path_parent_chain_witness :
  exists tool' r',
    get_path chain4 (DName "ee") DNone = (Ok ([0; 1; 2; 3], 3, tool'), r').
Proof.
  apply (get_path_parent_chain chain4 (DName "ee") DNone 3 0 None
           (snd (_get_limit_links chain4 (DName "ee") DNone)) [3; 2; 1; 0]).
  - apply chain4_names_unique.
  - apply cache_ok_empty. reflexivity.
  - vm_compute. reflexivity.
  - apply chain4_chain.
Defined.

(** The walk itself raises nothing but what a missing object raises. *)
Lemma walk_raise r fuel s :
  forall h path n x, walk r fuel s h path n = Raise x -> x = AttributeError.
Proof.
  induction fuel as [| fuel IH]; intros h path n x; simpl.
  - by destruct (decide (h = s)).
  - destruct (decide (h = s)); [done |].
    unfold deref, obj_get.
    destruct (objs r !! h) as [l |]; simpl; [| by intros [= <-]].
    destruct (parent l) as [p |]; [| done].
    destruct (objs r !! p) as [pl |]; simpl; [| by intros [= <-]].
    apply IH.
Qed.

Lemma resolve_walk_raise r fuel e s x :
  resolve_walk r fuel e s = Raise x -> x = AttributeError.
Proof.
  unfold resolve_walk, deref, obj_get.
  destruct (objs r !! e) as [el |]; simpl; [| by intros [= <-]].
  apply walk_raise.
Qed.

(** When [get_path] raises its "cannot find path" error, the cache has
    missed and the walk has met a link without parent. *)
Lemma get_path_no_path_inv r end_ start e s tool r1 a b :
  _get_limit_links r end_ start = (Ok (e, s, tool), r1) ->
  fst (get_path r end_ start) = Raise (NoPathError a b) ->
  exists el sl c,
    objs r !! e = Some el /\ objs r !! s = Some sl /\
    cache_get (_path_cache r) (name sl) (name el) = None /\
    ascent (objs r) s e c false.
Proof.
  intros Hlim. destruct (get_limit_links_frame _ _ _ _ _ Hlim) as [Hsame Hcache].
  assert (Hobjs : objs r1 = objs r) by apply Hsame.
  unfold get_path, get_path_fuel. rewrite Hlim. unfold deref, obj_get.
  rewrite Hobjs, Hcache.
  destruct (objs r !! s) as [sl |] eqn:Hsl; [| done].
  destruct (objs r !! e) as [el |] eqn:Hel; [| done].
  destruct (cache_get (_path_cache r) (name sl) (name el)) as [t |] eqn:Hget; [done |].
  set (r2 := set_path_cache r1 _).
  destruct (resolve_walk r2 (length (objs r)) e s) as [[[path n] |] | x |] eqn:Hw.
  - simpl _path_cache. rewrite <- Hcache.
    destruct (cache_put_touch (_path_cache r1) (name sl) (name el)
                (rev path, n, default SE3_eye tool)) as (c' & -> & _). done.
  - intros _. destruct (resolve_walk_sound _ _ _ _ _ Hw) as (c & [] & Hc & Hb); [done |].
    simpl in Hc. rewrite Hobjs in Hc. eauto 10.
  - apply resolve_walk_raise in Hw as ->. done.
  - done.
Qed.

(** C3: once the end points are resolved, [get_path] raises its "cannot
    find path" error exactly when the parent references from [end] reach a
    link without parent before they reach [start]; the robot is then the
    same tree as before, and its cache answers as before. *)
Theorem get_path_no_path_iff r end_ start e s tool r1 :
  names_unique (objs r) -> cache_ok r ->
  _get_limit_links r end_ start = (Ok (e, s, tool), r1) ->
  ((exists a b, fst (get_path r end_ start) = Raise (NoPathError a b))
   <-> no_path (objs r) s e) /\
  (forall a b,
      fst (get_path r end_ start) = Raise (NoPathError a b) ->
      same_tree r (snd (get_path r end_ start)) /\
      forall x y,
        cache_get (_path_cache (snd (get_path r end_ start))) x y
        = cache_get (_path_cache r) x y).
Proof.
  intros Hu Hok Hlim. split; [split |].
  - intros (a & b & Hraise).
    destruct (get_path_no_path_inv _ _ _ _ _ _ _ _ _ Hlim Hraise)
      as (el & sl & c & Hel & Hsl & _ & Hc).
    split; eauto.
  - intros [[sl Hsl] [c Hc]].
    destruct (ascent_head _ _ _ _ _ Hc) as (el & c0 & Hel & _).
    destruct (cache_get (_path_cache r) (name sl) (name el)) as [[[path n] tl] |] eqn:Hget.
    + destruct (cache_ok_entry _ _ _ _ _ _ _ _ Hu Hok Hel Hsl Hget) as (c' & Hc' & _).
      by destruct (ascent_det _ _ _ _ _ _ _ Hc Hc') as [_ ?].
    + destruct (get_path_miss_root _ _ _ _ _ _ _ _ _ Hlim Hel Hsl c Hget Hc) as (r' & -> & _).
      eauto.
  - intros a b Hraise.
    destruct (get_path_no_path_inv _ _ _ _ _ _ _ _ _ Hlim Hraise)
      as (el & sl & c & Hel & Hsl & Hget & Hc).
    destruct (get_path_miss_root _ _ _ _ _ _ _ _ _ Hlim Hel Hsl c Hget Hc) as (r' & -> & ? & ?).
    done.
Qed.

(** In the four-link chain there is no path from ["ee"] up to ["link1"]:
    the first link has no parent. *)
Lemma get_path_no_path_iff_witness :
  ((exists a b, fst (get_path chain4 (DLink 0) (DLink 3)) = Raise (NoPathError a b))
   <-> no_path (objs chain4) 3 0) /\
  (forall a b,
      fst (get_path chain4 (DLink 0) (DLink 3)) = Raise (NoPathError a b) ->
      same_tree chain4 (snd (get_path chain4 (DLink 0) (DLink 3))) /\
      forall x y,
        cache_get (_path_cache (snd (get_path chain4 (DLink 0) (DLink 3)))) x y
        = cache_get (_path_cache chain4) x y).
Proof.
  apply (get_path_no_path_iff chain4 (DLink 0) (DLink 3) 0 3 None
           (snd (_get_limit_links chain4 (DLink 0) (DLink 3)))).
  - apply chain4_names_unique.
  - apply cache_ok_empty. reflexivity.
  - vm_compute. reflexivity.
Defined.

Example chain4_no_path :
  fst (get_path chain4 (DLink 0) (DLink 3)) = Raise (NoPathError "ee" "link1").
Proof. vm_compute. reflexivity. Qed.

(** The end points depend on the tree only, not on the cache. *)
Lemma get_limit_links_same_tree r r' end_ start :
  same_tree r r' ->
  fst (_get_limit_links r' end_ start) = fst (_get_limit_links r end_ start).
Proof.
  intros (Ho & Hl & Hg & Hee & Hb & Hn & Hd).
  destruct r, r'; simpl in *; subst.
  unfold _get_limit_links, _getlink; simpl.
  destruct end_, start; repeat (simpl in *; case_match; simplify_eq); done.
Qed.

(** A request that has been answered is answered again with the same tuple,
    from the cache. *)
Lemma get_path_again r end_ start t r' :
  get_path r end_ start = (Ok t, r') ->
  exists r'', get_path r' end_ start = (Ok t, r'').
Proof.
  intros Hfirst.
  destruct (get_path_preserves _ _ _ _ _ Hfirst) as [Hsame _].
  pose proof (get_limit_links_same_tree _ _ end_ start Hsame) as Hlim'.
  revert Hfirst. unfold get_path, get_path_fuel.
  destruct (_get_limit_links r end_ start) as [lim r1] eqn:Hlim.
  destruct (_get_limit_links r' end_ start) as [lim' r1'] eqn:Hlim2.
  simpl in Hlim'. subst lim'.
  destruct (get_limit_links_frame _ _ _ _ _ Hlim) as [Hs1 Hc1].
  destruct (get_limit_links_frame _ _ _ _ _ Hlim2) as [Hs2 Hc2].
  assert (Hobjs : objs r1 = objs r) by apply Hs1.
  assert (Hobjs' : objs r' = objs r) by apply Hsame.
  assert (Hobjs2 : objs r1' = objs r) by (rewrite <- Hobjs'; apply Hs2).
  destruct lim as [[[e s] tool] | |]; [| done ..].
  unfold deref, obj_get. rewrite Hobjs, Hobjs2.
  destruct (objs r !! s) as [sl |] eqn:Hsl; [| done].
  destruct (objs r !! e) as [el |] eqn:Hel; [| done].
  rewrite Hc2.
  destruct (cache_get (_path_cache r1) (name sl) (name el)) as [t0 |] eqn:Hget.
  - intros [= -> <-]. rewrite Hget. eauto.
  - set (r2 := set_path_cache r1 _).
    destruct (resolve_walk r2 (length (objs r)) e s) as [[[path n] |] | |]; [| done ..].
    destruct (cache_put_touch (_path_cache r1) (name sl) (name el)
                (rev path, n, default SE3_eye tool)) as (c' & Hput & Hc').
    simpl _path_cache. rewrite Hput. intros [= <- <-]. simpl.
    rewrite Hc'. rewrite decide_True by done. eauto.
Qed.

(** With or without the cache, the path and the number of joints are the
    same; the cache decides on the tool alone. *)
Lemma get_path_nocache_path r end_ start path n tool :
  names_unique (objs r) -> cache_ok r ->
  fst (get_path r end_ start) = Ok (path, n, tool) ->
  exists tool', get_path_nocache r end_ start = Ok (path, n, tool').
Proof.
  intros Hu Hok.
  destruct (_get_limit_links r end_ start) as [lim r1] eqn:Hlim.
  destruct (get_limit_links_frame _ _ _ _ _ Hlim) as [Hs1 Hc1].
  assert (Hobjs : objs r1 = objs r) by apply Hs1.
  unfold get_path, get_path_fuel. rewrite Hlim.
  destruct lim as [[[e s] tl] | |]; [| done ..].
  unfold deref, obj_get. rewrite Hobjs, Hc1.
  destruct (objs r !! s) as [sl |] eqn:Hsl; [| done].
  destruct (objs r !! e) as [el |] eqn:Hel; [| done].
  destruct (cache_get (_path_cache r) (name sl) (name el)) as [t0 |] eqn:Hget.
  - simpl. intros [= ->].
    destruct (cache_ok_entry _ _ _ _ _ _ _ _ Hu Hok Hel Hsl Hget) as (c & Hc & -> & ->).
    rewrite (get_path_nocache_chain _ _ _ _ _ _ _ _ _ Hlim Hel Hsl c Hc). eauto.
  - set (r2 := set_path_cache r1 _).
    destruct (resolve_walk r2 (length (objs r)) e s) as [[[p0 n0] |] | |] eqn:Hw; [| done ..].
    destruct (cache_put_touch (_path_cache r) (name sl) (name el)
                (rev p0, n0, default SE3_eye tl)) as (c' & Hput & _).
    simpl _path_cache. rewrite Hput. simpl. intros [= <- <- <-].
    destruct (resolve_walk_sound _ _ _ _ _ Hw) as (c & [] & Hc & Hb); [| done].
    injection Hb as -> ->. simpl in Hc. rewrite Hobjs in Hc.
    rewrite (get_path_nocache_chain _ _ _ _ _ _ _ _ _ Hlim Hel Hsl c Hc). simpl.
    rewrite Hobjs. eauto.
Qed.

(** C2: the second of two requests for the same pair of names is answered
    from the cache, and here the cache changes the answer.  A first request
    names the first link of the gripper as a Link; the second one, with no
    end given, goes through the gripper.  It returns the stored tuple, with
    the identity as tool, where the resolution without cache returns the tool
    of the gripper. *)
Theorem get_path_cache_changes_result :
  let r1 := snd (get_path gripper_robot (DLink 2) DNone) in
  fst (get_path gripper_robot (DLink 2) DNone) = Ok ([0; 1; 2], 2, SE3_eye) /\
  cache_get (_path_cache r1) "link0" "hand" = Some ([0; 1; 2], 2, SE3_eye) /\
  fst (get_path r1 DNone DNone) = Ok ([0; 1; 2], 2, SE3_eye) /\
  get_path_nocache r1 DNone DNone = Ok ([0; 1; 2], 2, tool_z) /\
  fst (get_path r1 DNone DNone) <> get_path_nocache r1 DNone DNone.
Proof.
  repeat split; try (vm_compute; reflexivity).
  vm_compute. discriminate.
Qed.

(** C9: with the same robot, the tool of the answer is the one of the
    request that filled the cache.  An end given as the Gripper gets the
    tool of the gripper while the cache is empty, and the identity after a
    request for its first link; an end given as that Link gets the tool of the
    gripper after a request for the Gripper. *)
Theorem get_path_gripper_tool_stale :
  let r1 := snd (get_path gripper_robot (DLink 2) DNone) in
  let r2 := snd (get_path gripper_robot (DGripper 0) DNone) in
  fst (get_path gripper_robot (DGripper 0) DNone) = Ok ([0; 1; 2], 2, tool_z) /\
  fst (get_path r1 (DGripper 0) DNone) = Ok ([0; 1; 2], 2, SE3_eye) /\
  fst (get_path r2 (DLink 2) DNone) = Ok ([0; 1; 2], 2, tool_z) /\
  tool_z <> SE3_eye.
Proof.
  repeat split; try (vm_compute; reflexivity).
  vm_compute. discriminate.
Qed.

(** ** Velocity dampers: the claims *)

Lemma qdiv_ok x y : ~ (y == 0)%Q -> qdiv x y = Ok (x / y)%Q.
Proof.
  intros Hy. unfold qdiv.
  destruct (Qeq_bool y 0) eqn:Hb; [| done].
  apply Qeq_bool_iff in Hb. done.
Qed.

Lemma np_div_ok x d : ~ (d == 0)%Q -> np_div x d = Fin (x / d).
Proof.
  intros Hd. unfold np_div.
  destruct (Qeq_bool d 0) eqn:Hb; [| done].
  apply Qeq_bool_iff in Hb. done.
Qed.

Lemma vdiv3_ok a d : ~ (d == 0)%Q ->
  vdiv3 a d = (Fin (fst (fst a) / d), Fin (snd (fst a) / d), Fin (snd a / d)).
Proof.
  intros Hd. destruct a as [[x y] z]. unfold vdiv3.
  rewrite !np_div_ok by done. reflexivity.
Qed.

(** Where the distance is zero the division gives no finite value, and
    neither do the sums and products that follow it. *)
Lemma vdiv3_zero a d : (d == 0)%Q -> vdiv3 a d = (NonFinite, NonFinite, NonFinite).
Proof.
  intros Hd. destruct a as [[x y] z]. unfold vdiv3, np_div.
  by rewrite (proj2 (Qeq_bool_iff d 0) Hd).
Qed.

(** C5: for a shape that [closest_point] reports at the distance [d], with
    the point [(a1, a2, a3)] on the link and the point [(c1, c2, c3)] on the
    target, the bound is [xi * (d - ds) / (di - ds)] plus the separation
    direction, which is the difference of the two points over [d], dotted
    into the velocity [(v1, v2, v3)] of the target shape; when [d] is [ds],
    it is [0] plus that projection.  The two divisions ask for [d] and
    [di - ds] not to be zero, and the row for the Jacobian not to be wider
    than the number of joints of the path. *)
Theorem indiv_calculation_bound `{K : Kinematics} r shape q (di ds xi : Q) start n
  link link_col (d a1 a2 a3 c1 c2 c3 v1 v2 v3 w1 w2 w3 : Q) Je :
  closest_point link_col shape di = Some (d, (a1, a2, a3), (c1, c2, c3)) ->
  shape_v shape = ((v1, v2, v3), (w1, w2, w3)) ->
  ~ (d == 0)%Q -> ~ (di - ds == 0)%Q ->
  jacobe r q start link (shape_T link_col) = Ok Je ->
  length Je <= n ->
  exists l_Ain l_bin,
    indiv_calculation r shape q di ds xi start n link link_col
    = Ok (Some (l_Ain, Fin l_bin)) /\
    (l_bin == xi * (d - ds) / (di - ds)
              + ((c1 - a1) / d * v1 + (c2 - a2) / d * v2 + (c3 - a3) / d * v3))%Q /\
    ((d == ds)%Q ->
     (l_bin == 0 + ((c1 - a1) / d * v1 + (c2 - a2) / d * v2 + (c3 - a3) / d * v3))%Q).
Proof.
  intros Hcp Hv Hd Hdi HJe Hn. unfold indiv_calculation. rewrite Hcp, Hv.
  rewrite (vdiv3_ok _ _ Hd). rewrite HJe. cbn [mbind result_bind].
  rewrite (proj2 (Nat.leb_le _ _) Hn).
  rewrite (qdiv_ok _ _ Hdi). cbn [mbind result_bind].
  cbn [vadd3 vneg3 fst snd np_dot6 np_mul np_add].
  do 2 eexists. split; [reflexivity |].
  split.
  - unfold Qdiv, Qminus. ring.
  - intros Heq. rewrite Heq. unfold Qdiv, Qminus. ring.
Qed.

(** At the distance zero nothing is raised: the division of the array gives
    [inf] or [nan], the row and the bound are made of them and are handed to
    the loop like any other row. *)
Lemma indiv_calculation_zero_distance `{K : Kinematics} r shape q (di ds xi : Q) start n
  link link_col (d : Q) wTlp wTcp Je :
  closest_point link_col shape di = Some (d, wTlp, wTcp) ->
  (d == 0)%Q -> ~ (di - ds == 0)%Q ->
  jacobe r q start link (shape_T link_col) = Ok Je ->
  length Je <= n ->
  indiv_calculation r shape q di ds xi start n link link_col
  = Ok (Some (replicate (length Je) NonFinite ++ replicate (n - length Je) (Fin 0),
              NonFinite)).
Proof.
  intros Hcp Hd Hdi HJe Hn. unfold indiv_calculation. rewrite Hcp.
  rewrite (vdiv3_zero _ _ Hd). rewrite HJe. cbn [mbind result_bind].
  rewrite (proj2 (Nat.leb_le _ _) Hn).
  rewrite (qdiv_ok _ _ Hdi). cbn [mbind result_bind].
  assert (Hrow : forall cols : list vec6,
            map (np_dot6 (np_scale6 1 (NonFinite, NonFinite, NonFinite, (Fin 0, Fin 0, Fin 0))))
                cols
            = replicate (length cols) NonFinite).
  { induction cols as [| col cols IH]; [done |].
    cbn [map length replicate]. rewrite IH.
    by destruct col as [[[x y] z] [[u v] w]]. }
  rewrite Hrow. by destruct (shape_v shape) as [[[x y] z] [[u v] w]].
Qed.

Section DamperRows.
Context `{K : Kinematics}.
Variables (r : Robot) (shape : Shape) (q : option (list Q)) (di ds xi : Q).
Variables (start : handle) (n : nat).

Local Notation "'indiv'" := (indiv_calculation r shape q di ds xi start n).
Local Notation "'reaches' p" := (is_Some (closest_point (snd p) shape di)) (at level 10).

(** A row is there exactly when [closest_point] reports a distance. *)
Lemma indiv_calculation_some link col ro :
indiv link col = Ok ro -> (is_Some ro <-> is_Some (closest_point col shape di)).
Proof.
unfold indiv_calculation.
destruct (closest_point col shape di) as [[[d p1] p2] |].
- intros H. split; [eauto |]. intros _.
  destruct (jacobe _ _ _ _ _) as [Je | |]; [| done ..]. cbn [mbind result_bind] in H.
  destruct (length Je <=? n); [| done].
  destruct (qdiv _ _) as [b | |]; [| done ..]. cbn [mbind result_bind] in H.
  injection H as <-. eauto.
- intros [= <-]. split; intros [? ?]; done.
Qed.

Lemma result_map_app {A B} (f : A -> result B) xs ys rows :
result_map f (xs ++ ys) = Ok rows ->
exists r1 r2, rows = r1 ++ r2 /\ result_map f xs = Ok r1 /\ result_map f ys = Ok r2.
Proof.
revert rows. induction xs as [| x xs IH]; intros rows; cbn [app result_map].
- intros H. exists [], rows. done.
- destruct (f x) as [y | |]; [| done ..]. cbn [mbind result_bind].
  destruct (result_map f (xs ++ ys)) as [rs | |] eqn:Hrs; [| done ..].
  cbn [mbind result_bind]. intros [= <-].
  destruct (IH _ eq_refl) as (r1 & r2 & -> & -> & ->).
  exists (y :: r1), r2. done.
Qed.

Lemma stack_app rows1 rows2 :
stack (rows1 ++ rows2)
= (fst (stack rows1) ++ fst (stack rows2), snd (stack rows1) ++ snd (stack rows2)).
Proof. unfold stack. cbn [fst snd]. by rewrite omap_app, !map_app. Qed.

(** The inner loop appends the rows of the shapes of one link. *)
Lemma damper_shapes_rows link cols rows acc :
result_map (fun p => indiv (fst p) (snd p)) (map (pair link) cols) = Ok rows ->
damper_shapes r shape q di ds xi start n link cols acc
= Ok (fst acc ++ fst (stack rows), snd acc ++ snd (stack rows)).
Proof.
revert rows acc. induction cols as [| col cols IH]; intros rows acc;
  cbn [map result_map damper_shapes fst snd].
- intros [= <-]. unfold stack. cbn. rewrite !app_nil_r. by destruct acc.
- destruct (indiv link col) as [ro | |]; [| done ..]. cbn [mbind result_bind].
  destruct (result_map _ (map (pair link) cols)) as [rs | |] eqn:Hrs; [| done ..].
  cbn [mbind result_bind]. intros [= <-].
  destruct ro as [[l_Ain l_bin] |].
  + rewrite (IH _ _ eq_refl). unfold stack. cbn. by rewrite <- !app_assoc.
  + rewrite (IH _ _ eq_refl). done.
Qed.

(** The outer loop appends the rows of all the pairs of the path. *)
Lemma damper_links_rows cl path j pairs rows acc :
path_shapes r cl path j = Ok pairs ->
result_map (fun p => indiv (fst p) (snd p)) pairs = Ok rows ->
damper_links r shape q di ds xi start n cl path j acc
= Ok (fst acc ++ fst (stack rows), snd acc ++ snd (stack rows)).
Proof.
revert j pairs rows acc.
induction path as [| link path IH]; intros j pairs rows acc;
  cbn [path_shapes damper_links].
- intros [= <-] [= <-]. unfold stack. cbn. rewrite !app_nil_r. by destruct acc.
- destruct (deref r link) as [l | |]; [| done ..]. cbn [mbind result_bind].
  set (col_list := match cl with Some _ => _ | None => _ end).
  destruct col_list as [cols | |]; [| done ..]. cbn [mbind result_bind].
  destruct (path_shapes r cl path _) as [ps | |] eqn:Hps; [| done ..].
  cbn [mbind result_bind]. intros [= <-] Hrows.
  destruct (result_map_app _ _ _ _ Hrows) as (r1 & r2 & -> & Hr1 & Hr2).
  rewrite (damper_shapes_rows _ _ _ _ Hr1). cbn [mbind result_bind].
  rewrite (IH _ _ _ _ Hps Hr2). rewrite stack_app. cbn [fst snd].
  by rewrite <- !app_assoc.
Qed.

Lemma indiv_calculation_none link col :
closest_point col shape di = None -> indiv link col = Ok None.
Proof. intros H. unfold indiv_calculation. by rewrite H. Qed.

(** When no pair is within reach, every pair gives no row, without error. *)
Lemma result_map_out_of_reach pairs :
(forall p, p ∈ pairs -> closest_point (snd p) shape di = None) ->
result_map (fun p => indiv (fst p) (snd p)) pairs = Ok (map (fun _ => None) pairs).
Proof.
induction pairs as [| p pairs IH]; intros Hall; cbn [result_map map]; [done |].
rewrite (indiv_calculation_none (fst p) (snd p)) by (apply Hall; left; done).
cbn [mbind result_bind]. rewrite IH; [done |].
intros p' Hp'. apply Hall. by right.
Qed.

(** The rows are those of the pairs within reach, in their order. *)
Lemma result_map_rows pairs rows :
result_map (fun p => indiv (fst p) (snd p)) pairs = Ok rows ->
Forall2 (fun p row => indiv (fst p) (snd p) = Ok (Some row))
        (filter (fun p => reaches p) pairs) (omap id rows).
Proof.
revert rows. induction pairs as [| p pairs IH]; intros rows; cbn [result_map].
- intros [= <-]. constructor.
- destruct (indiv (fst p) (snd p)) as [ro | |] eqn:Hro; [| done ..].
  cbn [mbind result_bind].
  destruct (result_map _ pairs) as [rs | |]; [| done ..].
  cbn [mbind result_bind]. intros [= <-].
  pose proof (indiv_calculation_some _ _ _ Hro) as Hiff.
  rewrite filter_cons. destruct ro as [row |]; cbn [omap list_omap id].
  + rewrite decide_True by (apply Hiff; eauto). constructor; [done | by apply IH].
  + rewrite decide_False by (intros Hs; apply Hiff in Hs; by destruct Hs). by apply IH.
Qed.
End DamperRows.

(** C7: once the path is resolved and the shapes of its links are at hand,
    the damper returns [(None, None)] when [closest_point] reports no
    interaction for any pair of a link and a shape along the path; and when
    the calculation of every pair goes through, what it returns are the rows
    of the pairs within reach, one above the other in the order of the path:
    [(None, None)] when there is none, the matrix and the bounds otherwise. *)
Theorem link_collision_damper_rows `{K : Kinematics} r shape q (di ds xi : Q)
  end_ start cl e s t0 r1 path n t r2 pairs :
  _get_limit_links r end_ start = (Ok (e, s, t0), r1) ->
  get_path r1 (DLink e) (DLink s) = (Ok (path, n, t), r2) ->
  path_shapes r2 cl path 0 = Ok pairs ->
  ((forall p, p ∈ pairs -> closest_point (snd p) shape di = None) ->
   fst (link_collision_damper r shape q di ds xi end_ start cl) = Ok (None, None)) /\
  (forall rows,
     result_map (fun p => indiv_calculation r2 shape q di ds xi s n (fst p) (snd p)) pairs
     = Ok rows ->
     fst (link_collision_damper r shape q di ds xi end_ start cl)
     = Ok (damper_out (stack rows)) /\
     Forall2 (fun p row =>
                indiv_calculation r2 shape q di ds xi s n (fst p) (snd p) = Ok (Some row))
             (filter (fun p => is_Some (closest_point (snd p) shape di)) pairs)
             (omap id rows) /\
     (Exists (fun p => is_Some (closest_point (snd p) shape di)) pairs ->
      damper_out (stack rows) = (Some (fst (stack rows)), Some (snd (stack rows))))).
Proof.
  intros Hlim Hpath Hpairs.
  assert (Hrows : forall rows,
    result_map (fun p => indiv_calculation r2 shape q di ds xi s n (fst p) (snd p)) pairs
    = Ok rows ->
    fst (link_collision_damper r shape q di ds xi end_ start cl)
    = Ok (damper_out (stack rows))).
  { intros rows Hr. unfold link_collision_damper. rewrite Hlim, Hpath.
    rewrite (damper_links_rows _ _ _ _ _ _ _ _ _ _ _ _ _ _ Hpairs Hr). reflexivity. }
  split.
  - intros Hnone. rewrite (Hrows _ (result_map_out_of_reach _ _ _ _ _ _ _ _ _ Hnone)).
    f_equal. unfold damper_out, stack.
    replace (omap id (map (fun _ => None) pairs)) with (@nil (list npfloat * npfloat)); [done |].
    clear. induction pairs; [done | by cbn].
  - intros rows Hr. split; [by apply Hrows |].
    pose proof (result_map_rows _ _ _ _ _ _ _ _ _ _ Hr) as HF. split; [done |].
    intros Hex. unfold damper_out.
    destruct (fst (stack rows)) as [| row0 rest] eqn:Hst; [| done].
    exfalso. unfold stack in Hst. cbn [fst] in Hst.
    apply map_eq_nil in Hst. rewrite Hst in HF.
    apply Forall2_nil_inv_r in HF.
    apply Exists_exists in Hex as (p & Hin & Hp).
    assert (Hpf : p ∈ filter (fun p => is_Some (closest_point (snd p) shape di)) pairs).
    { apply list_elem_of_filter. split; done. }
    rewrite HF in Hpf. by apply not_elem_of_nil in Hpf.
Qed.

(** The near shape of the third link, at the distance [ds] from an obstacle
    that moves upwards: the bound is the projected velocity alone. *)
Lemma indiv_calculation_bound_witness :
  exists l_Ain l_bin,
    @indiv_calculation example_kinematics chain4_shapes obstacle None
      (3 # 10) (1 # 20) 1 0 3 2 near_shape = Ok (Some (l_Ain, Fin l_bin)) /\
    (l_bin == 1 * ((1 # 20) - (1 # 20)) / ((3 # 10) - (1 # 20))
              + ((0 - 0) / (1 # 20) * 0 + (0 - 0) / (1 # 20) * 0
                 + ((1 # 20) - 0) / (1 # 20) * 2))%Q /\
    ((1 # 20 == 1 # 20)%Q ->
     (l_bin == 0 + ((0 - 0) / (1 # 20) * 0 + (0 - 0) / (1 # 20) * 0
                    + ((1 # 20) - 0) / (1 # 20) * 2))%Q).
Proof.
  apply (@indiv_calculation_bound example_kinematics chain4_shapes obstacle None
           (3 # 10) (1 # 20) 1 0 3 2 near_shape (1 # 20) 0 0 0 0 0 (1 # 20) 0 0 2 0 0 0
           [((1, 0, 0), (0, 0, 0))%Q; ((0, 0, 1), (0, 0, 0))%Q]).
  - reflexivity.
  - reflexivity.
  - intros H. vm_compute in H. discriminate H.
  - intros H. vm_compute in H. discriminate H.
  - reflexivity.
  - simpl. lia.
Defined.

(** The shapes of the four-link chain against the obstacle: of the three
    pairs, the first one is within reach and gives the one row. *)
Lemma link_collision_damper_rows_witness :
  ((forall p, p ∈ chain4_shapes_pairs ->
      @closest_point example_kinematics (snd p) obstacle (3 # 10) = None) ->
   fst (@link_collision_damper example_kinematics chain4_shapes obstacle None
          (3 # 10) (1 # 20) 1 DNone DNone None)
   = Ok (None, None)) /\
  (forall rows,
     result_map (fun p => @indiv_calculation example_kinematics chain4_shapes_resolved
                            obstacle None (3 # 10) (1 # 20) 1 0 3 (fst p) (snd p))
                chain4_shapes_pairs
     = Ok rows ->
     fst (@link_collision_damper example_kinematics chain4_shapes obstacle None
            (3 # 10) (1 # 20) 1 DNone DNone None)
     = Ok (damper_out (stack rows)) /\
     Forall2 (fun p row =>
                @indiv_calculation example_kinematics chain4_shapes_resolved
                  obstacle None (3 # 10) (1 # 20) 1 0 3 (fst p) (snd p)
                = Ok (Some row))
             (filter (fun p => is_Some (@closest_point example_kinematics (snd p) obstacle (3 # 10)))
                     chain4_shapes_pairs)
             (omap id rows) /\
     (Exists (fun p => is_Some (@closest_point example_kinematics (snd p) obstacle (3 # 10)))
             chain4_shapes_pairs ->
      damper_out (stack rows) = (Some (fst (stack rows)), Some (snd (stack rows))))).
Proof.
  apply (@link_collision_damper_rows example_kinematics chain4_shapes obstacle None
           (3 # 10) (1 # 20) 1 DNone DNone None 3 0 None
           (snd (_get_limit_links chain4_shapes DNone DNone))
           [0; 1; 2; 3] 3 SE3_eye chain4_shapes_resolved chain4_shapes_pairs).
  - vm_compute. reflexivity.
  - vm_compute. reflexivity.
  - vm_compute. reflexivity.
Defined.

Example chain4_shapes_damper :
  fst (@link_collision_damper example_kinematics chain4_shapes obstacle None
         (3 # 10) (1 # 20) 1 DNone DNone None)
  = Ok (Some [[Fin (0 # 20); Fin (20 # 20); Fin 0]], Some [Fin (800000 # 400000)]).
Proof. vm_compute. reflexivity. Qed.

(** A path on which no shape is within reach: no constraint, and no error. *)
Example chain4_shapes_unobstructed :
  fst (@link_collision_damper example_kinematics chain4_shapes obstacle None
         (3 # 10) (1 # 20) 1 (DName "link2") DNone None)
  = Ok (None, None).
Proof. vm_compute. reflexivity. Qed.

(** ** [Xtree] is not read *)

Section XtreeUnused.
Context `{SA : SpatialAlgebra}.
Variables (r : Robot) (f : Link -> option SE3).
Variables (q qd qdd : list Q) (symbolic : bool) (gravity : vec3).

Lemma deref_retarget h :
  deref (retarget f r) h = l ← deref r h; Ok (with_Ts (f l) l).
Proof.
  unfold deref, obj_get, retarget. cbn [objs].
  change (map ?g ?l) with (g <$> l).
  rewrite list_lookup_fmap. by destruct (objs r !! h).
Qed.

(** The first loop gives the same inertias and motion subspaces, and an
    [Xtree] of the same length, whatever the constants [Ts] of the links. *)
Lemma rne_init_retarget ls :
  forall Ts Ts' j I_ Xtree Xtree' s,
    length Xtree = length Xtree' ->
    match rne_init r symbolic ls Ts j I_ Xtree s,
          rne_init (retarget f r) symbolic ls Ts' j I_ Xtree' s with
    | Ok (I1, X1, s1), Ok (I2, X2, s2) => I1 = I2 /\ s1 = s2 /\ length X1 = length X2
    | Raise x, Raise y => x = y
    | Diverges, Diverges => True
    | _, _ => False
    end.
Proof.
  induction ls as [| h ls IH]; intros Ts Ts' j I_ Xtree Xtree' s Hlen; cbn [rne_init].
  - done.
  - rewrite deref_retarget.
    destruct (deref r h) as [l | |]; cbn [mbind result_bind]; [| done ..].
    change (isjoint (with_Ts (f l) l)) with (isjoint l).
    destruct (isjoint l).
    + change (link_m (with_Ts (f l) l)) with (link_m l).
      change (link_r (with_Ts (f l) l)) with (link_r l).
      change (link_v (with_Ts (f l) l)) with (link_v l).
      destruct (set_r I_ j _) as [I' | |]; cbn [mbind result_bind]; [| done ..].
      unfold set_r. rewrite <- Hlen.
      destruct (j <? length Xtree)%nat; cbn [mbind result_bind]; [| done].
      apply IH. by rewrite !length_insert.
    + by apply IH.
Qed.

Lemma rne_forward_step_retarget I_ s a_grav j st :
  rne_forward_step (retarget f r) q qd qdd I_ s a_grav j st
  = rne_forward_step r q qd qdd I_ s a_grav j st.
Proof.
  unfold rne_forward_step. change (links (retarget f r)) with (links r).
  destruct (nth_r s j) as [sj | |]; cbn [mbind result_bind]; [| done ..].
  destruct (nth_r qd j) as [qdj | |]; cbn [mbind result_bind]; [| done ..].
  destruct (nth_r (links r) j) as [lh | |]; cbn [mbind result_bind]; [| done ..].
  rewrite deref_retarget.
  destruct (deref r lh) as [lj | |]; cbn [mbind result_bind]; [| done ..].
  change (link_A (with_Ts (f lj) lj)) with (link_A lj).
  change (parent (with_Ts (f lj) lj)) with (parent lj).
  destruct (nth_r q j) as [qj | |]; cbn [mbind result_bind]; [| done ..].
  destruct (set_r (st_Xup st) j _) as [Xup | |]; cbn [mbind result_bind]; [| done ..].
  destruct (nth_r Xup j) as [Xupj | |]; cbn [mbind result_bind]; [| done ..].
  destruct (parent lj) as [ph |]; [| done].
  rewrite deref_retarget.
  destruct (deref r ph) as [pl | |]; cbn [mbind result_bind]; done.
Qed.

Lemma rne_forward_retarget I_ s a_grav js :
  forall st,
    rne_forward (retarget f r) q qd qdd I_ s a_grav js st
    = rne_forward r q qd qdd I_ s a_grav js st.
Proof.
  induction js as [| j js IH]; intros st; cbn [rne_forward]; [done |].
  rewrite rne_forward_step_retarget.
  destruct (rne_forward_step r q qd qdd I_ s a_grav j st); cbn [mbind result_bind]; auto.
Qed.

Lemma rne_backward_step_retarget s Xup j fQ :
  rne_backward_step (retarget f r) s Xup j fQ = rne_backward_step r s Xup j fQ.
Proof.
  unfold rne_backward_step. destruct fQ as [fs Qs].
  change (links (retarget f r)) with (links r).
  destruct (nth_r fs j) as [fj | |]; cbn [mbind result_bind]; [| done ..].
  destruct (nth_r s j) as [sj | |]; cbn [mbind result_bind]; [| done ..].
  destruct (set_r Qs j _) as [Qs' | |]; cbn [mbind result_bind]; [| done ..].
  destruct (nth_r (links r) j) as [lh | |]; cbn [mbind result_bind]; [| done ..].
  rewrite deref_retarget.
  destruct (deref r lh) as [lj | |]; cbn [mbind result_bind]; [| done ..].
  change (parent (with_Ts (f lj) lj)) with (parent lj).
  destruct (parent lj) as [ph |]; [| done].
  rewrite deref_retarget.
  destruct (deref r ph) as [pl | |]; cbn [mbind result_bind]; done.
Qed.

Lemma rne_backward_retarget s Xup js :
  forall fQ,
    rne_backward (retarget f r) s Xup js fQ = rne_backward r s Xup js fQ.
Proof.
  induction js as [| j js IH]; intros fQ; cbn [rne_backward]; [done |].
  rewrite rne_backward_step_retarget.
  destruct (rne_backward_step r s Xup j fQ); cbn [mbind result_bind]; auto.
Qed.

(** The forces that rne returns are those of the robot in which the
    constants [Ts] of the links are replaced by anything else: what the first
    loop folds into [Xtree] does not reach the result. *)
Lemma rne_retarget :
  rne (retarget f r) q qd qdd symbolic gravity = rne r q qd qdd symbolic gravity.
Proof.
  unfold rne. change (rn (retarget f r)) with (rn r).
  change (links (retarget f r)) with (links r).
  pose proof (rne_init_retarget (links r) SE3_eye SE3_eye 0
                (replicate (rn r) si_alloc) (replicate (rn r) SE3_alloc)
                (replicate (rn r) SE3_alloc) [] eq_refl) as H.
  destruct (rne_init r symbolic (links r) _ _ _ _ _) as [[[I1 X1] s1] | |];
    destruct (rne_init (retarget f r) symbolic (links r) _ _ _ _ _) as [[[I2 X2] s2] | |];
    try done; cbn [mbind result_bind].
  - destruct H as (-> & -> & _).
    rewrite rne_forward_retarget.
    destruct (rne_forward r q qd qdd I2 s2 _ _ _) as [st | |]; cbn [mbind result_bind];
      [| done ..].
    by rewrite rne_backward_retarget.
  - by subst.
Qed.
End XtreeUnused.

(** ** Recursive Newton-Euler: the claim *)

(** C4: a fixed link followed by a joint.  The first loop folds the
    transform of the fixed link into [Xtree[0]], and nothing reads [Xtree];
    the forward recursion for the joint [0] takes [self.links[0]], the fixed
    link: its transform and its missing parent.  The force that rne returns
    is written out here: neither the transform [AJ] of the joint nor the
    constant [TsF] of the fixed link are part of it. *)
Theorem rne_fixed_then_joint `{SA : SpatialAlgebra} TsF AF AJ m c s0
  (q0 qd0 qdd0 : Q) symbolic gravity :
  let r := fixed_then_joint TsF AF AJ m c s0 in
  rne_init r false (links r) SE3_eye 0 [si_alloc] [SE3_alloc] []
  = Ok ([si_of m c], [SE3_mul (SE3_mul SE3_eye (SE3_of TsF)) (SE3_of None)], [s0]) /\
  rne r [q0] [qd0] [qdd0] symbolic gravity
  = let Xup := SE3_inv (AF q0) in
    let vJ := sv_of (vscale6 qd0 s0) in
    let a := sa_add (sa_xform Xup (sa_neg (sa_of3 gravity))) (sa_of (vscale6 qdd0 s0)) in
    let I0 := si_of m c in
    Ok [dot6 (sf_A (sf_add (si_mul_a I0 a) (sv_cross_m vJ (si_mul_v I0 vJ)))) s0].
Proof.
  split; [reflexivity |].
  unfold rne, fixed_then_joint. cbn [rn links objs].
  destruct symbolic, TsF; reflexivity.
Qed.

(** ** The base of ERobot2: the claim *)

(** C10: on an ERobot2, a raw matrix that [SE2.isvalid] accepts leaves
    [_base] as it is and becomes the tool, without error; an SE2 instance
    becomes the base; [None] is stored as it is, and the getter then returns
    the identity. *)
Theorem set_base_cases `{C : SE2Check} (self : Robot2) :
  is_ERobot2 self = true ->
  (forall m, SE2_isvalid m = true ->
     set_base self (BArray m) = Ok (mkRobot2 true (_base self) (Some (SE2_new m)))) /\
  (forall t, set_base self (BSE2 t) = Ok (mkRobot2 true (Some t) (_tool self))) /\
  set_base self BNone = Ok (mkRobot2 true None (_tool self)) /\
  (forall self', set_base self BNone = Ok self' ->
     get_base self' = (SE2_eye, mkRobot2 true (Some SE2_eye) (_tool self))).
Proof.
  intros He. unfold set_base. rewrite He. repeat split.
  - intros m Hm. by rewrite Hm.
  - intros self' [= <-]. reflexivity.
Qed.

Lemma set_base_cases_witness :
  (forall m, @SE2_isvalid example_SE2Check m = true ->
     @set_base example_SE2Check (mkRobot2 true (Some SE2_eye) None) (BArray m)
     = Ok (mkRobot2 true (Some SE2_eye) (Some (SE2_new m)))) /\
  (forall t, @set_base example_SE2Check (mkRobot2 true (Some SE2_eye) None) (BSE2 t)
             = Ok (mkRobot2 true (Some t) None)) /\
  @set_base example_SE2Check (mkRobot2 true (Some SE2_eye) None) BNone
  = Ok (mkRobot2 true None None) /\
  (forall self', @set_base example_SE2Check (mkRobot2 true (Some SE2_eye) None) BNone = Ok self' ->
     get_base self' = (SE2_eye, mkRobot2 true (Some SE2_eye) None)).
Proof.
  apply (@set_base_cases example_SE2Check (mkRobot2 true (Some SE2_eye) None)).
  reflexivity.
Defined.

(** A raw translation assigned to the base lands in the tool. *)
Example set_base_raw_matrix :
  @set_base example_SE2Check (mkRobot2 true (Some SE2_eye) None)
            (BArray [[1; 0; 5]; [0; 1; 7]; [0; 0; 1]]%Q)
  = Ok (mkRobot2 true (Some SE2_eye) (Some [[1; 0; 5]; [0; 1; 7]; [0; 0; 1]]%Q)).
Proof. reflexivity. Qed.

(** ** The depth-first visit ends *)

Section DfsTotal.
Context {X : Type}.
Variable func : option (handle -> list Link * X -> result (list Link * X)).

(** [func] ends, takes no object away and adds none. *)
Hypothesis func_ends : forall f h w, func = Some f -> f h w <> Diverges.
Hypothesis func_length :
  forall f h w w', func = Some f -> f h w = Ok w' -> length (fst w') = length (fst w).

Lemma visited_ok_length n visited : visited_ok n visited -> length visited <= n.
Proof.
  intros [Hnd Hall].
  assert (Hle : length visited <= length (seq 0 n)); [| by rewrite length_seq in Hle].
  apply NoDup_incl_length; [by apply NoDup_ListNoDup |].
  intros x Hx. apply in_seq. rewrite Forall_forall in Hall.
  apply list_elem_of_In in Hx. specialize (Hall x Hx). lia.
Qed.

Lemma visited_ok_snoc n visited h :
  visited_ok n visited -> h ∉ visited -> h < n -> visited_ok n (visited ++ [h]).
Proof.
  intros [Hnd Hall] Hnew Hlt. split.
  - apply NoDup_app. split; [done |]. split; [| apply NoDup_singleton].
    intros x Hx Hx'. apply list_elem_of_singleton in Hx' as ->. done.
  - apply Forall_app. split; [done |]. by repeat constructor.
Qed.

(** With a bound above the number of objects that are not yet visited, a
    call of [vis_children] ends: it returns or it raises. *)
Lemma vis_children_total fuel :
  forall link visited w,
    visited_ok (length (fst w)) visited -> link ∉ visited ->
    length (fst w) < fuel + length visited ->
    match vis_children func fuel link (visited, w) with
    | Ok (visited', w') =>
        length (fst w') = length (fst w) /\
        visited_ok (length (fst w)) visited' /\
        length visited < length visited'
    | Raise _ => True
    | Diverges => False
    end.
Proof using func_ends func_length.
  induction fuel as [| fuel IH]; intros link visited w Hok Hnew Hfuel.
  - apply visited_ok_length in Hok. simpl in Hfuel. lia.
  - cbn [vis_children fst snd].
    assert (Hw : match (match func with Some f => f link w | None => Ok w end) with
                 | Ok w1 => length (fst w1) = length (fst w)
                 | Raise _ => True
                 | Diverges => False
                 end).
    { destruct func as [f |] eqn:Hf; [| done].
      destruct (f link w) as [w1 | |] eqn:Hfw; [| done |].
      - eapply func_length; eauto.
      - by eapply func_ends. }
    destruct (match func with Some f => f link w | None => Ok w end) as [w1 | |];
      cbn [mbind result_bind]; [| done ..].
    unfold obj_get.
    destruct (fst w1 !! link) as [l |] eqn:Hl; cbn [mbind result_bind]; [| done].
    apply lookup_lt_Some in Hl. rewrite Hw in Hl.
    pose proof (visited_ok_snoc _ _ _ Hok Hnew Hl) as Hok1.
    assert (Hlen1 : length visited < length (visited ++ [link]))
      by (rewrite length_app; simpl; lia).
    revert Hok1 Hlen1. generalize (visited ++ [link]) as v1.
    revert Hw. generalize w1 as w2. clear Hl.
    induction (children l) as [| li cs IHcs]; intros w2 Hw2 v1 Hok1 Hlen1.
    + repeat split; [done | apply Hok1 .. | done].
    + cbn [fst]. destruct (bool_decide (li ∈ v1)) eqn:Hin.
      * by apply IHcs.
      * apply bool_decide_eq_false in Hin.
        assert (Hpre : visited_ok (length (fst w2)) v1) by (by rewrite Hw2).
        assert (Hfuel' : length (fst w2) < fuel + length v1) by (rewrite Hw2; lia).
        pose proof (IH li v1 w2 Hpre Hin Hfuel') as Hcall.
        destruct (vis_children func fuel li (v1, w2)) as [[v3 w3] | |];
          cbn [mbind result_bind]; [| done ..].
        destruct Hcall as (Hw3 & Hok3 & Hlen3).
        apply IHcs; [congruence | by rewrite <- Hw2 | lia].
Qed.

(** [dfs_links] ends. *)
Lemma dfs_links_total os x start : dfs_links func os x start <> Diverges.
Proof using func_ends func_length.
  unfold dfs_links.
  pose proof (vis_children_total (S (length os)) start [] (os, x)) as H.
  cbn [fst length] in H.
  destruct (vis_children func (S (length os)) start ([], (os, x))); [done | done |].
  intros _. apply H; [split; constructor | apply not_elem_of_nil | lia].
Qed.
End DfsTotal.

(** ** Construction: the claims *)

(** The builder of the spec, on the links of the documentation. *)
Example Robot_init_chain4 : Robot_init chain4_links [0; 1; 2; 3] [] true = Ok chain4.
Proof. vm_compute. reflexivity. Qed.

Example Robot_init_hand : Robot_init hand_links [0; 1; 2; 3] [2] true = Ok hand_robot.
Proof. vm_compute. reflexivity. Qed.

(** [BaseERobot.__init__] reads none of its arguments: whatever the links,
    the gripper links and the flag are, the constructor of the superclass
    gets the empty list, in which the builder finds no base link. *)
Lemma BaseERobot_init_empty os ls gripper_links checkjindex :
  BaseERobot_init os ls gripper_links checkjindex = Robot_init os [] [] true /\
  BaseERobot_init os ls gripper_links checkjindex
  = Raise (ConfigError "must have a base link").
Proof. split; reflexivity. Qed.

(** C6: the constructor numbers no joint.  Whatever it is given, the
    superclass gets the empty list and finds no base link; so for the four
    links of the documentation, none with a joint index: they stay without
    index, whereas the builder of the spec, given these links, numbers the
    joints 0, 1, 2 in depth-first order. *)
Theorem BaseERobot_init_no_jindex :
  (forall os ls gripper_links checkjindex,
     BaseERobot_init os ls gripper_links checkjindex
     = Raise (ConfigError "must have a base link")) /\
  BaseERobot_init chain4_links [0; 1; 2; 3] None true
  = Raise (ConfigError "must have a base link") /\
  map jindex chain4_links = [None; None; None; None] /\
  (exists r, Robot_init chain4_links [0; 1; 2; 3] [] true = Ok r /\
             map jindex (objs r) = [Some 0; Some 1; Some 2; None] /\ rn r = 3).
Proof.
  split; [intros; apply BaseERobot_init_empty |].
  split; [reflexivity |]. split; [reflexivity |].
  exists chain4. split; [apply Robot_init_chain4 |]. split; reflexivity.
Qed.

(** C8: the constructor makes no gripper.  It hands over neither the links
    nor the gripper roots, whatever they are; so for four links of which the
    third is the root of a gripper there is no tree and no Gripper, whereas
    the builder of the spec, given the links and the root, takes the two
    links of the gripper out of the sequence and counts two joints instead
    of three. *)
Theorem BaseERobot_init_no_gripper :
  (forall os ls gs gs' checkjindex,
     BaseERobot_init os ls gs checkjindex = BaseERobot_init os ls gs' checkjindex) /\
  BaseERobot_init hand_links [0; 1; 2; 3] (Some [2]) true
  = Raise (ConfigError "must have a base link") /\
  (exists r, Robot_init hand_links [0; 1; 2; 3] [2] true = Ok r /\
             links r = [0; 1] /\ map glinks (grippers r) = [[2; 3]] /\
             count_joints (objs r) [0; 1; 2; 3] = 3 /\
             map gn (grippers r) = [1] /\ rn r = 2).
Proof.
  split; [reflexivity |]. split; [reflexivity |].
  exists hand_robot. split; [apply Robot_init_hand |]. repeat split; reflexivity.
Qed.

(** ** The branched robot of the documentation *)

Example Robot_init_branched :
  exists r,
    Robot_init
      [ new_link "link1" true;
        with_parent_name "link1" (new_link "link2" true);
        with_parent_name "link2" (new_link "ee_1" false);
        with_parent_name "link1" (new_link "link3" true);
        with_parent_name "link3" (new_link "ee_2" false) ]
      [0; 1; 2; 3; 4] [] true = Ok r /\
    links r = [0; 1; 2; 3; 4] /\
    map jindex (objs r) = [Some 0; Some 1; None; Some 2; None] /\
    ee_links r = [2; 4] /\
    (* up one branch *)
    fst (get_path r (DName "ee_2") DNone) = Ok ([0; 3; 4], 2, SE3_eye) /\
    (* and not across the branches *)
    fst (get_path r (DName "ee_2") (DName "link2")) = Raise (NoPathError "link2" "ee_2").
Proof.
  eexists. split; [vm_compute; reflexivity |].
  repeat split; vm_compute; reflexivity.
Qed.

(** * Further properties *)

(** ** Path resolution and its cache *)

(** A store in which every parent is the index of an object is closed. *)
Lemma parents_closed_check os :
  forallb (fun l => match parent l with
                    | Some p => p <? length os
                    | None => true
                    end) os = true ->
  parents_closed os.
Proof.
  intros Hall h l p Hl Hp.
  rewrite forallb_forall in Hall.
  specialize (Hall l (proj1 (list_elem_of_In _ _) (list_elem_of_lookup_2 _ _ _ Hl))).
  rewrite Hp in Hall. apply Nat.ltb_lt in Hall.
  by apply lookup_lt_is_Some.
Qed.

(** X1: a request that [get_path] has answered is answered again with the
    same tuple, and this second call leaves the path cache as it is. *)
Theorem get_path_repeats r end_ start t r' :
  get_path r end_ start = (Ok t, r') ->
  exists r'', get_path r' end_ start = (Ok t, r'') /\ _path_cache r'' = _path_cache r'.
Proof.
  intros Hfirst.
  destruct (get_path_preserves _ _ _ _ _ Hfirst) as [Hsame _].
  pose proof (get_limit_links_same_tree _ _ end_ start Hsame) as Hlim'.
  revert Hfirst. unfold get_path, get_path_fuel.
  destruct (_get_limit_links r end_ start) as [lim r1] eqn:Hlim.
  destruct (_get_limit_links r' end_ start) as [lim' r1'] eqn:Hlim2.
  simpl in Hlim'. subst lim'.
  destruct (get_limit_links_frame _ _ _ _ _ Hlim) as [Hs1 Hc1].
  destruct (get_limit_links_frame _ _ _ _ _ Hlim2) as [Hs2 Hc2].
  assert (Hobjs : objs r1 = objs r) by apply Hs1.
  assert (Hobjs' : objs r' = objs r) by apply Hsame.
  assert (Hobjs2 : objs r1' = objs r) by (rewrite <- Hobjs'; apply Hs2).
  destruct lim as [[[e s] tool] | |]; [| done ..].
  unfold deref, obj_get. rewrite Hobjs, Hobjs2.
  destruct (objs r !! s) as [sl |] eqn:Hsl; [| done].
  destruct (objs r !! e) as [el |] eqn:Hel; [| done].
  rewrite Hc2.
  destruct (cache_get (_path_cache r1) (name sl) (name el)) as [t0 |] eqn:Hget.
  - intros [= -> <-]. rewrite Hget. eauto.
  - set (r2 := set_path_cache r1 _).
    destruct (resolve_walk r2 (length (objs r)) e s) as [[[path n] |] | |]; [| done ..].
    destruct (cache_put_touch (_path_cache r1) (name sl) (name el)
                (rev path, n, default SE3_eye tool)) as (c' & Hput & Hc').
    simpl _path_cache. rewrite Hput. intros [= <- <-]. simpl.
    rewrite Hc'. rewrite decide_True by done. eauto.
Qed.

Lemma get_path_repeats_witness :
  exists r'',
    get_path chain4_warm (DName "ee") DNone = (Ok ([0; 1; 2; 3], 3, SE3_eye), r'') /\
    _path_cache r'' = _path_cache chain4_warm.
Proof.
  apply (get_path_repeats chain4 (DName "ee") DNone ([0; 1; 2; 3], 3, SE3_eye) chain4_warm).
  vm_compute. reflexivity.
Defined.

(** X2: [get_path] never evicts and never overwrites: what the path cache
    holds under a pair of names before a call, it holds after it. *)
Theorem get_path_keeps_entries r end_ start a b t :
  cache_get (_path_cache r) a b = Some t ->
  cache_get (_path_cache (snd (get_path r end_ start))) a b = Some t.
Proof.
  intros Hab. unfold get_path, get_path_fuel.
  destruct (_get_limit_links r end_ start) as [lim r1] eqn:Hlim.
  destruct (get_limit_links_frame _ _ _ _ _ Hlim) as [_ Hc1].
  rewrite <- Hc1 in Hab.
  destruct lim as [[[e s] tool] | |]; [| done ..].
  destruct (deref r1 s) as [sl | |]; [| done ..].
  destruct (deref r1 e) as [el | |]; [| done ..].
  destruct (cache_get (_path_cache r1) (name sl) (name el)) as [t0 |] eqn:Hget; [done |].
  set (r2 := set_path_cache r1 _).
  assert (Hab2 : cache_get (_path_cache r2) a b = Some t)
    by (simpl; by rewrite cache_get_touch).
  destruct (resolve_walk r2 (length (objs r)) e s) as [[[path n] |] | |]; [| done ..].
  destruct (cache_put_touch (_path_cache r1) (name sl) (name el)
              (rev path, n, default SE3_eye tool)) as (c' & Hput & Hc').
  simpl _path_cache. rewrite Hput. simpl. rewrite Hc'.
  case_decide as Hd; [| done].
  destruct Hd as [-> ->]. congruence.
Qed.

Lemma get_path_keeps_entries_witness :
  cache_get (_path_cache (snd (get_path chain4_warm (DName "link3") (DName "link2"))))
            "link1" "ee"
  = Some ([0; 1; 2; 3], 3, SE3_eye).
Proof.
  apply (get_path_keeps_entries chain4_warm (DName "link3") (DName "link2")).
  vm_compute. reflexivity.
Defined.

(** X3: [get_path] changes nothing of the tree (objects, links, grippers,
    end-effectors, base, [n], link dictionary), whatever its outcome, and a
    cache whose entries are walks of the tree stays such a cache. *)
Theorem get_path_keeps_cache_sound r end_ start :
  cache_ok r ->
  same_tree r (snd (get_path r end_ start)) /\ cache_ok (snd (get_path r end_ start)).
Proof.
  intros Hok.
  destruct (get_path r end_ start) as [x r'] eqn:Hg.
  destruct (get_path_preserves _ _ _ _ _ Hg) as [Hsame Hkeep]. simpl. auto.
Qed.

Lemma get_path_keeps_cache_sound_witness :
  same_tree chain4 (snd (get_path chain4 (DName "ee") DNone)) /\
  cache_ok (snd (get_path chain4 (DName "ee") DNone)).
Proof.
  apply (get_path_keeps_cache_sound chain4 (DName "ee") DNone).
  apply cache_ok_empty. reflexivity.
Defined.

(** X4: what [get_path] returns, from the cache or not, has the path and
    the number of joints of the walk along the parent references; only the
    tool may be another one. *)
Theorem get_path_matches_walk r end_ start path n tool :
  names_unique (objs r) -> cache_ok r ->
  fst (get_path r end_ start) = Ok (path, n, tool) ->
  exists tool', get_path_nocache r end_ start = Ok (path, n, tool').
Proof. apply get_path_nocache_path. Qed.

Lemma chain4_warm_cache_ok : cache_ok chain4_warm.
Proof.
  apply (get_path_preserves chain4 (DName "ee") DNone
           (fst (get_path chain4 (DName "ee") DNone)) chain4_warm).
  - unfold chain4_warm. by destruct (get_path chain4 (DName "ee") DNone).
  - apply cache_ok_empty. reflexivity.
Qed.

Lemma get_path_matches_walk_witness :
  exists tool', get_path_nocache chain4_warm (DName "ee") DNone = Ok ([0; 1; 2; 3], 3, tool').
Proof.
  apply (get_path_matches_walk chain4_warm (DName "ee") DNone [0; 1; 2; 3] 3 SE3_eye).
  - apply chain4_names_unique.
  - apply chain4_warm_cache_ok.
  - vm_compute. reflexivity.
Defined.

(** X5: when the cache has no entry for the pair of names, the tool of the
    answer is the one the request asks for: the identity for an end given as
    a Link, the tool of the gripper for an end given as a Gripper of the
    robot. *)
Theorem get_path_tool_on_miss r end_ start e s tool r1 el sl c :
  _get_limit_links r end_ start = (Ok (e, s, tool), r1) ->
  objs r !! e = Some el -> objs r !! s = Some sl ->
  cache_get (_path_cache r) (name sl) (name el) = None ->
  parent_chain (objs r) s e c ->
  (forall h, end_ = DLink h ->
     fst (get_path r end_ start) = Ok (rev c, count_joints (objs r) c, SE3_eye)) /\
  (forall g, end_ = DGripper (gid g) -> NoDup (map gid (grippers r)) -> g ∈ grippers r ->
     fst (get_path r end_ start) = Ok (rev c, count_joints (objs r) c, gtool g)).
Proof. apply get_path_miss_tool. Qed.

Lemma gripper_robot_chain : parent_chain (objs gripper_robot) 0 2 [2; 1; 0].
Proof.
  unfold parent_chain.
  eapply ascent_up; [done | reflexivity | reflexivity |].
  eapply ascent_up; [done | reflexivity | reflexivity |].
  eapply ascent_start. reflexivity.
Qed.

Lemma get_path_tool_on_miss_witness :
  (forall h, DGripper 0 = DLink h ->
     fst (get_path gripper_robot (DGripper 0) DNone)
     = Ok (rev [2; 1; 0], count_joints (objs gripper_robot) [2; 1; 0], SE3_eye)) /\
  (forall g, DGripper 0 = DGripper (gid g) -> NoDup (map gid (grippers gripper_robot)) ->
     g ∈ grippers gripper_robot ->
     fst (get_path gripper_robot (DGripper 0) DNone)
     = Ok (rev [2; 1; 0], count_joints (objs gripper_robot) [2; 1; 0], gtool g)).
Proof.
  apply (get_path_tool_on_miss gripper_robot (DGripper 0) DNone 2 0 (Some tool_z)
           (snd (_get_limit_links gripper_robot (DGripper 0) DNone))
           (tree_link "hand" false None (Some 1) [3])
           (tree_link "link0" true (Some 0) None [1]) [2; 1; 0]).
  - vm_compute. reflexivity.
  - reflexivity.
  - reflexivity.
  - vm_compute. reflexivity.
  - apply gripper_robot_chain.
Defined.

(** Beyond the number of objects, the bound of the walk is of no effect. *)
Lemma resolve_walk_bound r fuel e s :
  parents_closed (objs r) -> length (objs r) <= fuel ->
  resolve_walk r fuel e s = resolve_walk r (length (objs r)) e s.
Proof.
  intros Hcl Hfuel.
  destruct (resolve_walk r (length (objs r)) e s) as [w | x |] eqn:Hw.
  - destruct (resolve_walk_sound _ _ _ _ _ Hw) as (c & b & Hc & ->).
    apply resolve_walk_ascent; [done |].
    etrans; [eapply ascent_length; eauto | done].
  - revert Hw. unfold resolve_walk, deref, obj_get.
    destruct (objs r !! e) as [el |] eqn:Hel; simpl; [| done].
    intros Hw. exfalso. eapply walk_closed; eauto.
  - by apply walk_diverges.
Qed.

(** X6: the loop of [get_path] ends within as many iterations as there are
    Link objects, or not at all: with parent references that are references
    to objects, running it for longer changes neither the answer nor the
    robot. *)
Theorem get_path_loop_bound r end_ start fuel :
  parents_closed (objs r) -> length (objs r) <= fuel ->
  get_path_fuel fuel r end_ start = get_path r end_ start.
Proof.
  intros Hcl Hfuel. unfold get_path, get_path_fuel.
  destruct (_get_limit_links r end_ start) as [lim r1] eqn:Hlim.
  destruct (get_limit_links_frame _ _ _ _ _ Hlim) as [Hs1 _].
  assert (Hobjs : objs r1 = objs r) by apply Hs1.
  destruct lim as [[[e s] tool] | |]; [| done ..].
  destruct (deref r1 s) as [sl | |]; [| done ..].
  destruct (deref r1 e) as [el | |]; [| done ..].
  destruct (cache_get (_path_cache r1) (name sl) (name el)); [done |].
  set (r2 := set_path_cache r1 _).
  assert (Hobjs2 : objs r2 = objs r) by done.
  rewrite (resolve_walk_bound r2 fuel e s) by (rewrite Hobjs2; done).
  by rewrite Hobjs2.
Qed.

Lemma chain4_parents_closed : parents_closed (objs chain4).
Proof. apply parents_closed_check. reflexivity. Qed.

Lemma get_path_loop_bound_witness :
  get_path_fuel 10 chain4 (DName "ee") DNone = get_path chain4 (DName "ee") DNone.
Proof.
  apply (get_path_loop_bound chain4 (DName "ee") DNone 10).
  - apply chain4_parents_closed.
  - simpl. lia.
Defined.

(** X7: [_get_limit_links] writes the three attributes [_cache_end],
    [_cache_end_tool] and [_cache_start] and nothing else: the tree and the
    path cache are as before, and when both [end] and [start] are given the
    robot is left as it is. *)
Theorem get_limit_links_writes r end_ start :
  same_tree r (snd (_get_limit_links r end_ start)) /\
  _path_cache (snd (_get_limit_links r end_ start)) = _path_cache r /\
  (end_ <> DNone -> start <> DNone -> snd (_get_limit_links r end_ start) = r).
Proof.
  destruct (_get_limit_links r end_ start) as [x r1] eqn:Hlim.
  destruct (get_limit_links_frame _ _ _ _ _ Hlim) as [Hsame Hc].
  simpl. split; [done |]. split; [done |].
  intros He Hs. revert Hlim. unfold _get_limit_links.
  destruct end_; [done | ..]; destruct start; try done;
    repeat (simpl; case_match; simplify_eq); congruence.
Qed.

(** The loop over the grippers has no [break]: the last gripper that matches
    [end] gives the tool. *)
Lemma gripper_tool_last gs d :
  gripper_tool gs d = gtool <$> last (List.filter (names_gripper d) gs).
Proof.
  unfold gripper_tool.
  induction gs as [| g gs IH] using rev_ind; [done |].
  rewrite fold_left_app, List.filter_app. cbn [fold_left List.filter].
  destruct (names_gripper d g).
  - by rewrite last_snoc.
  - by rewrite app_nil_r.
Qed.

(** X8: for an end that is given, the tool which [_get_limit_links] returns
    is the tool of the last gripper of the robot that is this end or has it
    as its name, and [None] when there is no such gripper. *)
Theorem get_limit_links_last_gripper r end_ start e s tool r1 :
  end_ <> DNone ->
  _get_limit_links r end_ start = (Ok (e, s, tool), r1) ->
  tool = gtool <$> last (List.filter (names_gripper end_) (grippers r)).
Proof.
  intros He. rewrite <- gripper_tool_last. unfold _get_limit_links.
  destruct end_; [done | ..];
    (destruct (_getlink r _) as [h' | |]; cbn [mbind result_bind]; [| by destruct start ..];
     destruct start; cbn [mbind result_bind];
     [ by intros [= _ _ <- _]
     | destruct (_getlink r _); cbn [mbind result_bind]; [| done ..]; by intros [= _ _ <- _] .. ]).
Qed.

Lemma get_limit_links_last_gripper_witness :
  Some tool_z = gtool <$> last (List.filter (names_gripper (DName "hand")) (grippers gripper_robot)).
Proof.
  apply (get_limit_links_last_gripper gripper_robot (DName "hand") DNone 2 0 (Some tool_z)
           (snd (_get_limit_links gripper_robot (DName "hand") DNone))).
  - discriminate.
  - vm_compute. reflexivity.
Defined.

(** ** The velocity damper *)

Section DamperShape.
Context `{K : Kinematics}.
Variables (r : Robot) (shape : Shape) (q : option (list Q)) (di ds xi : Q).
Variables (start : handle) (n : nat).

(** As many rows as bounds, and every row of the width [n]. *)
Local Notation "'shaped' acc" :=
  (length (fst acc) = length (snd acc) /\ Forall (fun row => length row = n) (fst acc))
  (at level 10).

Lemma indiv_calculation_width link col row b :
  indiv_calculation r shape q di ds xi start n link col = Ok (Some (row, b)) ->
  length row = n.
Proof.
  unfold indiv_calculation.
  destruct (closest_point col shape di) as [[[d p1] p2] |]; [| done].
  destruct (jacobe _ _ _ _ _) as [Je | |]; [| done ..]. cbn [mbind result_bind].
  destruct (length Je <=? n) eqn:Hle; [| done]. apply Nat.leb_le in Hle.
  destruct (qdiv _ _) as [b0 | |]; [| done ..]. cbn [mbind result_bind].
  intros [= <- _]. rewrite length_app, length_map, length_replicate. lia.
Qed.

Lemma damper_shapes_shaped link cols :
  forall acc acc',
    shaped acc ->
    damper_shapes r shape q di ds xi start n link cols acc = Ok acc' ->
    shaped acc'.
Proof.
  induction cols as [| col cols IH]; intros acc acc' Hacc; cbn [damper_shapes].
  - by intros [= <-].
  - destruct (indiv_calculation r shape q di ds xi start n link col) as [[[row b] |] | |] eqn:Hi;
      cbn [mbind result_bind]; [| | done ..].
    + apply IH. cbn [fst snd]. destruct Hacc as [Hlen Hall]. split.
      * rewrite !length_app. simpl. lia.
      * apply Forall_app. split; [done |].
        repeat constructor. by eapply indiv_calculation_width.
    + by apply IH.
Qed.

Lemma damper_links_shaped cl path :
  forall j acc acc',
    shaped acc ->
    damper_links r shape q di ds xi start n cl path j acc = Ok acc' ->
    shaped acc'.
Proof.
  induction path as [| link path IH]; intros j acc acc' Hacc; cbn [damper_links].
  - by intros [= <-].
  - destruct (deref r link) as [l | |]; cbn [mbind result_bind]; [| done ..].
    set (col_list := match cl with Some _ => _ | None => _ end).
    destruct col_list as [cols | |]; cbn [mbind result_bind]; [| done ..].
    destruct (damper_shapes r shape q di ds xi start n link cols acc) as [acc1 | |] eqn:Hs;
      cbn [mbind result_bind]; [| done ..].
    apply IH. by eapply damper_shapes_shaped.
Qed.
End DamperShape.

(** X9: what [link_collision_damper] returns is [(None, None)] or a matrix
    [Ain] with a vector [bin]: at least one row, as many rows as bounds, and
    every row as wide as the number of joints of the resolved path. *)
Theorem link_collision_damper_matrix `{K : Kinematics} r shape q (di ds xi : Q)
  end_ start cl e s t0 r1 path n t r2 A b :
  _get_limit_links r end_ start = (Ok (e, s, t0), r1) ->
  get_path r1 (DLink e) (DLink s) = (Ok (path, n, t), r2) ->
  fst (link_collision_damper r shape q di ds xi end_ start cl) = Ok (A, b) ->
  (A = None /\ b = None) \/
  (exists rows bs,
     A = Some rows /\ b = Some bs /\ rows <> [] /\ length rows = length bs /\
     Forall (fun row => length row = n) rows).
Proof.
  intros Hlim Hpath. unfold link_collision_damper. rewrite Hlim, Hpath. cbn [fst].
  destruct (damper_links r2 shape q di ds xi s n cl path 0 ([], [])) as [acc | |] eqn:Hd;
    cbn [mbind result_bind]; [| done ..].
  assert (Hsh : length (fst acc) = length (snd acc) /\
                Forall (fun row => length row = n) (fst acc)).
  { eapply damper_links_shaped; [| exact Hd]. split; [done | constructor]. }
  unfold damper_out. destruct acc as [rows bs]. cbn [fst snd] in *.
  destruct rows as [| row rows]; intros [= <- <-]; [by left |].
  right. exists (row :: rows), bs. destruct Hsh. done.
Qed.

Lemma link_collision_damper_matrix_witness :
  (Some [[Fin (0 # 20); Fin (20 # 20); Fin 0]] = None /\ Some [Fin (800000 # 400000)] = None) \/
  (exists rows bs,
     Some [[Fin (0 # 20); Fin (20 # 20); Fin 0]] = Some rows /\ Some [Fin (800000 # 400000)] = Some bs /\
     rows <> [] /\ length rows = length bs /\
     Forall (fun row => length row = 3) rows).
Proof.
  apply (@link_collision_damper_matrix example_kinematics chain4_shapes obstacle None
           (3 # 10) (1 # 20) 1 DNone DNone None 3 0 None
           (snd (_get_limit_links chain4_shapes DNone DNone))
           [0; 1; 2; 3] 3 SE3_eye chain4_shapes_resolved).
  - vm_compute. reflexivity.
  - vm_compute. reflexivity.
  - vm_compute. reflexivity.
Defined.

(** An answer of [get_path] is a reversed parent chain of the tree. *)
Lemma get_path_ok_chain r end_ start path n tool :
  names_unique (objs r) -> cache_ok r ->
  fst (get_path r end_ start) = Ok (path, n, tool) ->
  exists e s c, parent_chain (objs r) s e c /\ path = rev c.
Proof.
  intros Hu Hok Hg.
  destruct (get_path_nocache_path _ _ _ _ _ _ Hu Hok Hg) as [tool' Hn].
  revert Hn. unfold get_path_nocache.
  destruct (_get_limit_links r end_ start) as [lim r1] eqn:Hlim.
  destruct (get_limit_links_frame _ _ _ _ _ Hlim) as [Hs1 _].
  assert (Hobjs : objs r1 = objs r) by apply Hs1.
  destruct lim as [[[e s] tl] | |]; [| done ..].
  destruct (deref r1 s) as [sl | |]; cbn [mbind result_bind]; [| done ..].
  destruct (deref r1 e) as [el | |]; cbn [mbind result_bind]; [| done ..].
  destruct (resolve_walk r1 (length (objs r1)) e s) as [w | |] eqn:Hw;
    cbn [mbind result_bind]; [| done ..].
  destruct (resolve_walk_sound _ _ _ _ _ Hw) as (c & [] & Hc & ->); [| done].
  intros [= <- _ _]. rewrite Hobjs in Hc. eauto.
Qed.

Lemma py_index_nil {A} (i : Z) : py_index (@nil A) i = Raise IndexError.
Proof.
  unfold py_index. destruct (_ && _); [by rewrite lookup_nil | done].
Qed.

(** [xs[-1]] is the last element. *)
Lemma py_index_last {A} (xs : list A) (x : A) : py_index (xs ++ [x]) (-1) = Ok x.
Proof.
  unfold py_index. rewrite length_app. cbn [length].
  change (-1 <? 0)%Z with true. cbv iota.
  replace (Z.of_nat (length xs + 1) + -1)%Z with (Z.of_nat (length xs)) by lia.
  replace ((0 <=? Z.of_nat (length xs)) && (Z.of_nat (length xs) <? Z.of_nat (length xs + 1)))%Z
    with true
    by (symmetry; apply andb_true_iff; split; [apply Z.leb_le | apply Z.ltb_lt]; lia).
  rewrite Nat2Z.id. rewrite lookup_app_r by done. by rewrite Nat.sub_diag.
Qed.

(** X10: with the empty list as [collision_list], the damper raises
    [IndexError] for every request whose path resolves: the first link of
    the path already finds no entry. *)
Theorem link_collision_damper_empty_list `{K : Kinematics} r shape q (di ds xi : Q)
  end_ start e s t0 r1 path n t r2 :
  names_unique (objs r) -> cache_ok r ->
  _get_limit_links r end_ start = (Ok (e, s, t0), r1) ->
  get_path r1 (DLink e) (DLink s) = (Ok (path, n, t), r2) ->
  fst (link_collision_damper r shape q di ds xi end_ start (Some [])) = Raise IndexError.
Proof.
  intros Hu Hok Hlim Hpath.
  destruct (get_limit_links_frame _ _ _ _ _ Hlim) as [Hs1 Hc1].
  assert (Hobjs1 : objs r1 = objs r) by apply Hs1.
  destruct (get_path_preserves _ _ _ _ _ Hpath) as [Hs2 _].
  assert (Hobjs2 : objs r2 = objs r) by (rewrite <- Hobjs1; apply Hs2).
  assert (Hok1 : cache_ok r1) by (by apply (cache_ok_frame r r1)).
  assert (Hg : fst (get_path r1 (DLink e) (DLink s)) = Ok (path, n, t))
    by (by rewrite Hpath).
  rewrite <- Hobjs1 in Hu.
  destruct (get_path_ok_chain _ _ _ _ _ _ Hu Hok1 Hg) as (e' & s' & c & Hc & ->).
  unfold link_collision_damper. rewrite Hlim, Hpath. cbn [fst].
  pose proof (ascent_valid _ _ _ _ _ Hc) as Hval.
  destruct (ascent_head _ _ _ _ _ Hc) as (el & c' & _ & ->).
  destruct (rev (e' :: c')) as [| h0 rest] eqn:Hrev.
  { apply (f_equal length) in Hrev. rewrite length_rev in Hrev. simpl in Hrev. lia. }
  assert (Hh0 : h0 < length (objs r1)).
  { rewrite Forall_forall in Hval. apply Hval.
    apply list_elem_of_In, in_rev. rewrite Hrev. by left. }
  rewrite Hobjs1, <- Hobjs2 in Hh0. apply lookup_lt_is_Some in Hh0 as [l Hl].
  cbn [damper_links]. unfold deref, obj_get. rewrite Hl. cbn [mbind result_bind].
  by rewrite py_index_nil.
Qed.

Lemma link_collision_damper_empty_list_witness :
  fst (@link_collision_damper example_kinematics chain4_shapes obstacle None
         (3 # 10) (1 # 20) 1 DNone DNone (Some []))
  = Raise IndexError.
Proof.
  apply (@link_collision_damper_empty_list example_kinematics chain4_shapes obstacle None
           (3 # 10) (1 # 20) 1 DNone DNone 3 0 None
           (snd (_get_limit_links chain4_shapes DNone DNone))
           [0; 1; 2; 3] 3 SE3_eye chain4_shapes_resolved).
  - apply names_unique_NoDup.
    apply (bool_decide_unpack (NoDup (map name (objs chain4_shapes)))).
    vm_compute. done.
  - apply cache_ok_empty. reflexivity.
  - vm_compute. reflexivity.
  - vm_compute. reflexivity.
Defined.

(** X11: [collision_list] is indexed by the number of joints met so far,
    less one.  For a link of the path that comes before the first joint this
    is [collision_list[-1]]: the shapes looked at are those of the last
    entry of the list. *)
Theorem damper_links_before_first_joint `{K : Kinematics} r shape q (di ds xi : Q)
  start n cl cs link rest acc l :
  deref r link = Ok l -> isjoint l = false ->
  damper_links r shape q di ds xi start n (Some (cl ++ [cs])) (link :: rest) 0 acc
  = acc' ← damper_shapes r shape q di ds xi start n link cs acc;
    damper_links r shape q di ds xi start n (Some (cl ++ [cs])) rest 0 acc'.
Proof.
  intros Hl Hj. cbn [damper_links]. rewrite Hl. cbn [mbind result_bind]. rewrite Hj.
  change (Z.of_nat 0 - 1)%Z with (-1)%Z. rewrite py_index_last. reflexivity.
Qed.

Lemma damper_links_before_first_joint_witness :
  @damper_links example_kinematics chain4_shapes obstacle None (3 # 10) (1 # 20) 1 0 3
    (Some ([[far_shape]] ++ [[near_shape]])) (3 :: []) 0 ([], [])
  = acc' ← @damper_shapes example_kinematics chain4_shapes obstacle None (3 # 10) (1 # 20) 1
             0 3 3 [near_shape] ([], []);
    @damper_links example_kinematics chain4_shapes obstacle None (3 # 10) (1 # 20) 1 0 3
      (Some ([[far_shape]] ++ [[near_shape]])) [] 0 acc'.
Proof.
  apply (@damper_links_before_first_joint example_kinematics chain4_shapes obstacle None
           (3 # 10) (1 # 20) 1 0 3 [[far_shape]] [near_shape] 3 [] ([], [])
           (with_collision [far_shape] (tree_link "ee" false None (Some 2) []))).
  - reflexivity.
  - reflexivity.
Defined.

(** ** Recursive Newton-Euler *)

Section RneShape.
Context `{SA : SpatialAlgebra}.
Variable r : Robot.
Variables (q qd qdd : list Q) (symbolic : bool) (gravity : vec3).

Lemma set_r_length {A} (xs ys : list A) i x : set_r xs i x = Ok ys -> length ys = length xs.
Proof.
  unfold set_r. destruct (i <? length xs); [| done]. intros [= <-]. apply length_insert.
Qed.

Lemma rne_backward_step_length s Xup j f Qs f' Qs' :
  rne_backward_step r s Xup j (f, Qs) = Ok (f', Qs') -> length Qs' = length Qs.
Proof.
  unfold rne_backward_step.
  destruct (nth_r f j) as [fj | |]; cbn [mbind result_bind]; [| done ..].
  destruct (nth_r s j) as [sj | |]; cbn [mbind result_bind]; [| done ..].
  destruct (set_r Qs j _) as [Qs1 | |] eqn:HQ; cbn [mbind result_bind]; [| done ..].
  apply set_r_length in HQ.
  destruct (nth_r (links r) j) as [lh | |]; cbn [mbind result_bind]; [| done ..].
  destruct (deref r lh) as [lj | |]; cbn [mbind result_bind]; [| done ..].
  destruct (parent lj) as [ph |]; [| by intros [= _ <-]].
  destruct (deref r ph) as [pl | |]; cbn [mbind result_bind]; [| done ..].
  destruct (nth_j f (jindex pl)) as [fjp | |]; cbn [mbind result_bind]; [| done ..].
  destruct (nth_r Xup j) as [Xupj | |]; cbn [mbind result_bind]; [| done ..].
  destruct (set_j f (jindex pl) _) as [f1 | |]; cbn [mbind result_bind]; [| done ..].
  by intros [= _ <-].
Qed.

Lemma rne_backward_length s Xup js :
  forall f Qs f' Qs',
    rne_backward r s Xup js (f, Qs) = Ok (f', Qs') -> length Qs' = length Qs.
Proof.
  induction js as [| j js IH]; intros f Qs f' Qs'; cbn [rne_backward].
  - by intros [= _ <-].
  - destruct (rne_backward_step r s Xup j (f, Qs)) as [[f1 Qs1] | |] eqn:Hs;
      cbn [mbind result_bind]; [| done ..].
    intros H. apply IH in H. apply rne_backward_step_length in Hs. congruence.
Qed.

(** The first loop stops with [IndexError] at the joint number [n + 1]. *)
Lemma rne_init_overflow n ls :
  forall Ts j I_ Xtree s,
    length I_ = n -> length Xtree = n -> j <= n ->
    Forall (fun h => is_Some (objs r !! h)) ls ->
    n < j + count_joints (objs r) ls ->
    rne_init r symbolic ls Ts j I_ Xtree s = Raise IndexError.
Proof.
  induction ls as [| h ls IH]; intros Ts j I_ Xtree s HI HX Hj Hval Hcount.
  - unfold count_joints in Hcount. simpl in Hcount. lia.
  - apply Forall_cons in Hval as [[l Hl] Hval].
    rewrite (count_joints_cons _ _ _ _ Hl) in Hcount.
    cbn [rne_init]. unfold deref, obj_get. rewrite Hl. cbn [mbind result_bind].
    unfold count_joint in Hcount. destruct (isjoint l).
    + unfold set_r. rewrite HI, HX.
      destruct (j <? n) eqn:Hjn; cbn [mbind result_bind]; [| done].
      apply Nat.ltb_lt in Hjn.
      apply IH; rewrite ?length_insert; try done; lia.
    + by apply IH.
Qed.
End RneShape.

(** X12: when rne returns, it returns one force per joint: an array of
    length [n]. *)
Theorem rne_length `{SA : SpatialAlgebra} r q qd qdd symbolic gravity :
  match rne r q qd qdd symbolic gravity with
  | Ok Qs => length Qs = rn r
  | _ => True
  end.
Proof.
  unfold rne.
  destruct (rne_init r symbolic (links r) _ _ _ _ _) as [[[I_ Xtree] s] | |];
    cbn [mbind result_bind]; [| done ..].
  destruct (rne_forward r q qd qdd I_ s _ _ _) as [st | |]; cbn [mbind result_bind];
    [| done ..].
  destruct (rne_backward r s (st_Xup st) _ _) as [[f Qs] | |] eqn:Hb;
    cbn [mbind result_bind]; [| done ..].
  apply rne_backward_length in Hb. by rewrite length_replicate in Hb.
Qed.

(** X13: a robot whose links hold more joints than its [n] says makes rne
    raise [IndexError]: the arrays of the first loop have [n] places. *)
Theorem rne_too_many_joints `{SA : SpatialAlgebra} r q qd qdd symbolic gravity :
  Forall (fun h => is_Some (objs r !! h)) (links r) ->
  rn r < count_joints (objs r) (links r) ->
  rne r q qd qdd symbolic gravity = Raise IndexError.
Proof.
  intros Hval Hcount. unfold rne.
  rewrite (rne_init_overflow r symbolic (rn r)); try done.
  - apply length_replicate.
  - apply length_replicate.
  - lia.
Qed.

Lemma rne_too_many_joints_witness :
  @rne example_algebra chain4_n2 [0; 0]%Q [0; 0]%Q [0; 0]%Q false (0, 0, 981 # 100)%Q
  = Raise IndexError.
Proof.
  apply (@rne_too_many_joints example_algebra chain4_n2).
  - repeat constructor; by eexists.
  - vm_compute. lia.
Defined.

(** X14: rne reads the constants [link.Ts] for [Xtree] only, and [Xtree]
    for nothing: the forces it returns, and the errors it raises, are the same
    for the robot in which these constants are replaced by any others. *)
Theorem rne_ignores_Ts `{SA : SpatialAlgebra} r f q qd qdd symbolic gravity :
  rne (retarget f r) q qd qdd symbolic gravity = rne r q qd qdd symbolic gravity.
Proof. apply rne_retarget. Qed.

Example slider_rne :
  @rne example_algebra slider [0]%Q [0]%Q [0]%Q false (0, 0, 981 # 100)%Q
  = Ok [- (1962 # 100)]%Q.
Proof. vm_compute. reflexivity. Qed.

(** ** The base of ERobot2 *)

(** X15: on an ERobot2 the setter of [base] raises for no value: its
    [ValueError] is out of reach.  A raw matrix that [SE2.isvalid] rejects,
    and any other value that is neither [None] nor an SE2, is dropped without
    a word: the robot stays as it is. *)
Theorem set_base_no_error `{C : SE2Check} (self : Robot2) (T : base_arg) :
  is_ERobot2 self = true ->
  exists self',
    set_base self T = Ok self' /\
    (forall m, T = BArray m -> SE2_isvalid m = false -> self' = self) /\
    (T = BOther -> self' = self).
Proof.
  intros He. unfold set_base. rewrite He.
  destruct T as [| t | m |].
  - eexists. split; [done |]. split; [intros ? [=] | intros [=]].
  - eexists. split; [done |]. split; [intros ? [=] | intros [=]].
  - destruct (SE2_isvalid m) eqn:Hm; eexists; (split; [done |]);
      (split; [intros ? [= <-] Hv; congruence | intros [=]]).
  - eexists. split; [done |]. split; [intros ? [=] | done].
Qed.

Lemma set_base_no_error_witness :
  exists self',
    @set_base example_SE2Check (mkRobot2 true (Some SE2_eye) None)
              (BArray [[1; 0]; [0; 1]]%Q) = Ok self' /\
    (forall m, BArray [[1; 0]; [0; 1]]%Q = BArray m ->
       @SE2_isvalid example_SE2Check m = false ->
       self' = mkRobot2 true (Some SE2_eye) None) /\
    (BArray [[1; 0]; [0; 1]]%Q = BOther -> self' = mkRobot2 true (Some SE2_eye) None).
Proof.
  apply (@set_base_no_error example_SE2Check (mkRobot2 true (Some SE2_eye) None)
           (BArray [[1; 0]; [0; 1]]%Q)).
  reflexivity.
Defined.

(** X16: an SE2 assigned to [base] is what the getter returns next, and the
    getter then writes nothing; and in any state a second read returns what
    the first one did and leaves the robot as the first one left it. *)
Theorem base_round_trip `{C : SE2Check} (self : Robot2) (t : SE2) :
  is_ERobot2 self = true ->
  (exists self', set_base self (BSE2 t) = Ok self' /\ get_base self' = (t, self')) /\
  get_base (snd (get_base self)) = (fst (get_base self), snd (get_base self)).
Proof.
  intros He. split.
  - unfold set_base. rewrite He. eexists. split; [done |]. reflexivity.
  - unfold get_base. destruct (_base self) eqn:Hb; simpl; [by rewrite Hb | done].
Qed.

Lemma base_round_trip_witness :
  (exists self',
     @set_base example_SE2Check (mkRobot2 true None None)
               (BSE2 [[1; 0; 5]; [0; 1; 7]; [0; 0; 1]]%Q) = Ok self' /\
     get_base self' = ([[1; 0; 5]; [0; 1; 7]; [0; 0; 1]]%Q, self')) /\
  get_base (snd (get_base (mkRobot2 true None None)))
  = (fst (get_base (mkRobot2 true None None)), snd (get_base (mkRobot2 true None None))).
Proof.
  apply (@base_round_trip example_SE2Check (mkRobot2 true None None)
           [[1; 0; 5]; [0; 1; 7]; [0; 0; 1]]%Q).
  reflexivity.
Defined.

(** ** The depth-first visit *)

Section DfsVisit.
Context {X : Type}.
Variables (os : list Link) (x : X).

Lemma vis_children_visit fuel :
  forall link visited,
    visited_ok (length os) visited -> link ∉ visited ->
    length os < fuel + length visited ->
    match vis_children None fuel link (visited, (os, x)) with
    | Ok (visited', w') => w' = (os, x) /\ visit_done os visited link visited'
    | Raise e => e = AttributeError
    | Diverges => False
    end.
Proof.
  induction fuel as [| fuel IH]; intros link visited Hok Hnew Hfuel.
  - apply visited_ok_length in Hok. simpl in Hfuel. lia.
  - cbn [vis_children fst snd mbind result_bind]. unfold obj_get.
    destruct (os !! link) as [l |] eqn:Hl; cbn [mbind result_bind]; [| done].
    pose proof (lookup_lt_Some _ _ _ Hl) as Hlt.
    pose proof (visited_ok_snoc _ _ _ Hok Hnew Hlt) as Hok1.
    (* the loop over the children, for any rest [K] of them *)
    pose (K := children l).
    assert (Hcov : forall c, c ∈ children l -> c ∈ K \/ c ∈ visited ++ [link])
      by (intros; by left).
    assert (Hext : exists ext, visited ++ [link] = visited ++ link :: ext)
      by (by exists []).
    assert (Hclo : forall h l0 c, h ∈ visited ++ [link] -> h ∉ visited -> h <> link ->
                     os !! h = Some l0 -> c ∈ children l0 -> c ∈ visited ++ [link]).
    { intros h l0 c Hh Hnv Hne. apply elem_of_app in Hh as [? | Hh]; [done |].
      apply list_elem_of_singleton in Hh. done. }
    change (children l) with K. clearbody K.
    revert Hok1 Hcov Hext Hclo. generalize (visited ++ [link]) as v1.
    induction K as [| li cs IHcs]; intros v1 Hok1 Hcov Hext Hclo.
    + split; [done |]. split; [done |]. split; [done |].
      intros h l0 c Hh Hnv Hl0 Hc.
      destruct (decide (h = link)) as [-> | Hne].
      * assert (l0 = l) as -> by congruence.
        destruct (Hcov c Hc) as [Hnil | ?]; [by apply elem_of_nil in Hnil | done].
      * eauto.
    + cbn [fst]. destruct (bool_decide (li ∈ v1)) eqn:Hin.
      * apply bool_decide_eq_true in Hin. apply IHcs; try done.
        intros c Hc. destruct (Hcov c Hc) as [Hc' | ?]; [| by right].
        apply elem_of_cons in Hc' as [-> | ?]; [by right | by left].
      * apply bool_decide_eq_false in Hin.
        assert (Hfuel' : length os < fuel + length v1).
        { destruct Hext as [ext ->]. rewrite length_app. simpl. lia. }
        pose proof (IH li v1 Hok1 Hin Hfuel') as Hcall.
        destruct (vis_children None fuel li (v1, (os, x))) as [[v3 w3] | |];
          cbn [mbind result_bind]; [| done ..].
        destruct Hcall as (-> & Hok3 & [ext3 ->] & Hclo3).
        apply IHcs; try done.
        -- intros c Hc. destruct (Hcov c Hc) as [Hc' | ?].
           ++ apply elem_of_cons in Hc' as [-> | ?]; [right | by left].
              apply elem_of_app. right. by left.
           ++ right. apply elem_of_app. by left.
        -- destruct Hext as [ext ->]. exists (ext ++ li :: ext3).
           by rewrite <- !app_assoc.
        -- intros h l0 c Hh Hnv Hne Hl0 Hc.
           destruct (decide (h ∈ v1)) as [Hv1 | Hv1].
           ++ apply elem_of_app. left. eauto.
           ++ eauto.
Qed.
End DfsVisit.

(** X17: [dfs_links] without [func] always ends.  It returns a list that
    starts with [start], holds no link twice and holds, with every link, the
    children of that link; what it raises otherwise is the error of a
    reference that is no object.  The objects are left as they are. *)
Theorem dfs_links_visit {X : Type} (os : list Link) (x : X) (start : handle) :
  match dfs_links None os x start with
  | Ok (visited, w) =>
      w = (os, x) /\ NoDup visited /\ head visited = Some start /\
      (forall h l c, h ∈ visited -> os !! h = Some l -> c ∈ children l -> c ∈ visited)
  | Raise e => e = AttributeError
  | Diverges => False
  end.
Proof.
  unfold dfs_links.
  pose proof (vis_children_visit os x (S (length os)) start []) as H.
  destruct (vis_children None (S (length os)) start ([], (os, x))) as [[visited w] | e |].
  - destruct H as (-> & [Hnd _] & [ext ->] & Hclo);
      [split; constructor | apply not_elem_of_nil | simpl; lia |].
    split; [done |]. split; [done |]. split; [done |].
    intros h l c Hh. apply Hclo; [done | apply not_elem_of_nil].
  - apply H; [split; constructor | apply not_elem_of_nil | simpl; lia].
  - apply H; [split; constructor | apply not_elem_of_nil | simpl; lia].
Qed.

Example dfs_links_hand :
  dfs_links None (objs gripper_robot) () 1 = Ok ([1; 2; 3], (objs gripper_robot, ())).
Proof. vm_compute. reflexivity. Qed.

(** ** Links from an ETS *)

Lemma ets_loop_lookup segs :
  forall j parent ls,
    (forall i, i < length ls -> ets_loop segs j parent ls !! i = ls !! i) /\
    length (ets_loop segs j parent ls) = length ls + length segs /\
    (forall i e, segs !! i = Some e ->
       ets_loop segs j parent ls !! (length ls + i)
       = Some (Link_new e (chain_parent parent (length ls) i) ("link" +:+ pretty (j + i)),
               link_qlim e)).
Proof.
  induction segs as [| e segs IH]; intros j parent ls; cbn [ets_loop].
  - split; [done |]. split; [simpl; lia |]. intros i e' Hi. by rewrite lookup_nil in Hi.
  - destruct (IH (S j) (Some (length ls))
                (ls ++ [(Link_new e parent ("link" +:+ pretty j), link_qlim e)]))
      as (Hold & Hlen & Hnew).
    rewrite length_app in Hold, Hlen, Hnew. cbn [length] in Hold, Hlen, Hnew.
    split; [| split].
    + intros i Hi. rewrite Hold by lia. by rewrite lookup_app_l.
    + rewrite Hlen. simpl. lia.
    + intros [| i] e' Hi.
      * injection Hi as <-. rewrite Nat.add_0_r, Hold by lia.
        rewrite lookup_app_r by done. rewrite Nat.sub_diag. cbn. by rewrite Nat.add_0_r.
      * cbn in Hi. specialize (Hnew i e' Hi).
        replace (length ls + S i) with (length ls + 1 + i) by lia.
        rewrite Hnew. do 3 f_equal.
        -- destruct i; cbn; f_equal; lia.
        -- f_equal. f_equal. lia.
Qed.

(** The link number [i] of an ETS: its name is ["link"] followed by [i],
    its parent is the link before it. *)
Lemma ets_links_lookup segs i e :
  segs !! i = Some e ->
  ets_links segs !! i
  = Some (Link_new e (chain_parent None 0 i) ("link" +:+ pretty i), link_qlim e).
Proof.
  intros Hi. destruct (ets_loop_lookup segs 0 None []) as (_ & _ & Hnew).
  apply (Hnew i e Hi).
Qed.

Lemma ets_links_length segs : length (ets_links segs) = length segs.
Proof.
  unfold ets_links. by destruct (ets_loop_lookup segs 0 None []) as (_ & H & _).
Qed.

Lemma ets_links_object segs i l :
  (fst <$> ets_links segs) !! i = Some l ->
  exists e, segs !! i = Some e /\
            l = Link_new e (chain_parent None 0 i) ("link" +:+ pretty i).
Proof.
  intros Hl. rewrite list_lookup_fmap in Hl.
  destruct (segs !! i) as [e |] eqn:He.
  - rewrite (ets_links_lookup _ _ _ He) in Hl. injection Hl as <-. eauto.
  - apply lookup_ge_None in He. rewrite <- ets_links_length in He.
    apply lookup_ge_None in He. by rewrite He in Hl.
Qed.

(** X18: the loop over the segments of an ETS makes one link per segment,
    named [link0], [link1], ... in this order, so that no two links have
    the same name. *)
Theorem ets_links_names (segs : list LinkETS) :
  length (ets_links segs) = length segs /\
  (forall i l, (fst <$> ets_links segs) !! i = Some l -> name l = "link" +:+ pretty i) /\
  names_unique (fst <$> ets_links segs).
Proof.
  split; [apply ets_links_length |]. split.
  - intros i l Hl. by destruct (ets_links_object _ _ _ Hl) as (e & _ & ->).
  - intros h1 h2 l1 l2 H1 H2 Hn.
    destruct (ets_links_object _ _ _ H1) as (e1 & _ & ->).
    destruct (ets_links_object _ _ _ H2) as (e2 & _ & ->).
    cbn [Link_new name] in Hn.
    apply (inj (String.app "link")) in Hn. by apply (inj pretty) in Hn.
Qed.

(** X19: the links made of an ETS form one chain: every link but the first
    has the link before it as parent, so that the parent references lead from
    any link [b] up to any link [a] before it, through all links between. *)
Theorem ets_links_chain (segs : list LinkETS) (a b : nat) :
  a <= b -> b < length segs ->
  parent_chain (fst <$> ets_links segs) a b (rev (seq a (S b - a))).
Proof.
  intros Hab Hb. unfold parent_chain.
  remember (b - a) as d eqn:Hd. revert b Hab Hb Hd.
  induction d as [| d IH]; intros b Hab Hb Hd.
  - assert (b = a) as -> by lia.
    replace (S a - a) with 1 by lia. cbn [seq rev app].
    destruct (lookup_lt_is_Some_2 segs a Hb) as [e He].
    eapply ascent_start. rewrite list_lookup_fmap, (ets_links_lookup _ _ _ He). done.
  - destruct b as [| b']; [lia |].
    replace (S (S b') - a) with (S (S b' - a)) by lia.
    rewrite seq_S, rev_app_distr. cbn [rev app].
    replace (a + (S b' - a)) with (S b') by lia.
    destruct (lookup_lt_is_Some_2 segs (S b') Hb) as [e He].
    eapply ascent_up.
    + lia.
    + rewrite list_lookup_fmap, (ets_links_lookup _ _ _ He). done.
    + cbn. reflexivity.
    + apply IH; lia.
Qed.

Lemma ets_links_chain_witness :
  parent_chain (fst <$> ets_links example_segments) 0 2 (rev (seq 0 (3 - 0))).
Proof.
  apply (ets_links_chain example_segments 0 2).
  - lia.
  - simpl. lia.
Defined.

Example ets_links_example :
  map (fun lq => (name (fst lq), parent (fst lq), isjoint (fst lq), snd lq))
      (ets_links example_segments)
  = [("link0"%string, None, true, Some (0, 1)%Q);
     ("link1"%string, Some 0, true, None);
     ("link2"%string, Some 1, false, None)].
Proof. vm_compute. reflexivity. Qed.

(** ** The shape of a path *)

(** An answer of [get_path] is the parent chain between the two links that
    the request resolves to. *)
Lemma get_path_ok_chain_at r end_ start e s tool r1 path n t :
  names_unique (objs r) -> cache_ok r ->
  _get_limit_links r end_ start = (Ok (e, s, tool), r1) ->
  fst (get_path r end_ start) = Ok (path, n, t) ->
  exists c, parent_chain (objs r) s e c /\ path = rev c /\ n = count_joints (objs r) c.
Proof.
  intros Hu Hok Hlim.
  destruct (get_limit_links_frame _ _ _ _ _ Hlim) as [Hs1 Hc1].
  assert (Hobjs : objs r1 = objs r) by apply Hs1.
  unfold get_path, get_path_fuel. rewrite Hlim. unfold deref, obj_get.
  rewrite Hobjs, Hc1.
  destruct (objs r !! s) as [sl |] eqn:Hsl; [| done].
  destruct (objs r !! e) as [el |] eqn:Hel; [| done].
  destruct (cache_get (_path_cache r) (name sl) (name el)) as [t0 |] eqn:Hget.
  - simpl. intros [= ->]. eapply cache_ok_entry; eauto.
  - set (r2 := set_path_cache r1 _).
    destruct (resolve_walk r2 (length (objs r)) e s) as [[[p0 n0] |] | |] eqn:Hw; [| done ..].
    destruct (cache_put_touch (_path_cache r) (name sl) (name el)
                (rev p0, n0, default SE3_eye tool)) as (c' & Hput & _).
    simpl _path_cache. rewrite Hput. simpl. intros [= <- <- _].
    destruct (resolve_walk_sound _ _ _ _ _ Hw) as (c & [] & Hc & Hb); [| done].
    injection Hb as -> ->. simpl in Hc. rewrite Hobjs in Hc.
    exists c. simpl. by rewrite Hobjs.
Qed.

Lemma ascent_last os s h c : ascent os s h c true -> last c = Some s.
Proof.
  remember true as b eqn:Hb. induction 1 as [| | h l p c b Hne Hl Hp Hc IH]; try done.
  destruct (ascent_head _ _ _ _ _ Hc) as (pl & c' & _ & ->).
  rewrite last_cons_cons. by apply IH.
Qed.

Lemma count_joints_le os c : count_joints os c <= length c.
Proof. unfold count_joints. apply List.filter_length_le. Qed.

(** X20: a path that [get_path] returns starts with the start link, ends
    with the end link and holds no link twice; the number of joints that comes
    with it is at most the number of its links. *)
Theorem get_path_shape r end_ start e s tool r1 path n t :
  names_unique (objs r) -> cache_ok r ->
  _get_limit_links r end_ start = (Ok (e, s, tool), r1) ->
  fst (get_path r end_ start) = Ok (path, n, t) ->
  head path = Some s /\ last path = Some e /\ NoDup path /\ n <= length path.
Proof.
  intros Hu Hok Hlim Hg.
  destruct (get_path_ok_chain_at _ _ _ _ _ _ _ _ _ _ Hu Hok Hlim Hg) as (c & Hc & -> & ->).
  pose proof (ascent_last _ _ _ _ Hc) as Hlast.
  destruct (ascent_head _ _ _ _ _ Hc) as (el & c' & _ & Hhead).
  split; [| split; [| split]].
  - apply last_Some in Hlast as [c0 ->]. by rewrite rev_unit.
  - rewrite Hhead. cbn [rev]. by rewrite last_snoc.
  - apply NoDup_ListNoDup, List.NoDup_rev, NoDup_ListNoDup. by eapply ascent_NoDup.
  - rewrite length_rev. apply count_joints_le.
Qed.

Lemma get_path_shape_witness :
  head [0; 1; 2; 3] = Some 0 /\ last [0; 1; 2; 3] = Some 3 /\
  NoDup [0; 1; 2; 3] /\ 3 <= length [0; 1; 2; 3].
Proof.
  eapply (get_path_shape chain4_warm (DName "ee") DNone 3 0 _ _ [0; 1; 2; 3] 3 SE3_eye).
  - apply chain4_names_unique.
  - apply chain4_warm_cache_ok.
  - vm_compute. reflexivity.
  - vm_compute. reflexivity.
Defined.
